(** * The prototype spawner ([src/utils/spawner.py]), embedded in Rocq

    The module resolves prototype dictionaries through their [prototype]
    parents ([_get_prototype]), splits every resolved dictionary into the
    arguments of the object store ([spawn]) and drives the creation hooks
    and attachment handlers ([_batch_create_object]).

    Python values are a small inductive universe.  Dictionaries are objects:
    a value refers to one by its address in a heap, so that shared parents
    and cyclic parent graphs can be written down.  The accumulator [prot] of
    the resolver is a fresh dictionary owned by the running call; it is
    threaded through the calls as a value. *)

From Stdlib Require Import ZArith Lia Ascii String.
From stdpp Require Import base option list strings gmap fin_maps relations pretty.

#[local] Set Warnings "-register-all".

Local Open Scope string_scope.
Local Open Scope nat_scope.
Local Open Scope list_scope.

(** ** Python values *)

Definition addr := nat.
Definition fn := nat.

Inductive pyval : Type :=
| VNone
| VInt (z : Z)
| VStr (s : string)
| VSeq (xs : list pyval)      (* a tuple or a list *)
| VDict (a : addr)            (* a dict object, by reference *)
| VFun (f : fn)               (* a function taking no arguments *)
| VObj (o : nat).             (* an object of the store *)

(** A dict whose keys are field names. *)
Abbreviation pydict := (gmap string pyval).

(** The dict objects allocated so far; an address is a position.  Python has
    no dangling reference: [deref] reads the empty dict past the end. *)
Definition heap := list pydict.

Definition deref (h : heap) (a : addr) : pydict := default ∅ (h !! a).

(** ** Outcomes of a call *)

Inductive exn : Type :=
| TypeError
| ValueError
| KeyError
| IndexError
| External (code : nat).      (* raised by a collaborator outside the module *)

Inductive outcome (A : Type) : Type :=
| Ok (a : A)                  (* the call returns *)
| Raise (e : exn)             (* an exception leaves the call *)
| OutOfFuel                   (* the recursion is deeper than the fuel: the
                                 interpreter's RuntimeError, maximum recursion
                                 depth exceeded *)
| OffModel.                   (* the run leaves the fragment modelled here *)

Arguments Ok {A} a.
Arguments Raise {A} e.
Arguments OutOfFuel {A}.
Arguments OffModel {A}.

Definition obind {A B} (m : outcome A) (k : A → outcome B) : outcome B :=
  match m with
  | Ok a => k a
  | Raise e => Raise e
  | OutOfFuel => OutOfFuel
  | OffModel => OffModel
  end.

Definition ofmap {A B} (f : A → B) (m : outcome A) : outcome B :=
  obind m (λ a, Ok (f a)).

Declare Scope outcome_scope.
Delimit Scope outcome_scope with outcome.
Notation "'let*' x ':=' m 'in' k" := (obind m (λ x, k))
  (at level 10, x name, m at level 100, k at level 200) : outcome_scope.
Local Open Scope outcome_scope.

(** A [for] loop whose body may raise: the first exception ends it. *)
Fixpoint ofold {A B} (body : A → B → outcome A) (acc : A) (xs : list B)
  : outcome A :=
  match xs with
  | [] => Ok acc
  | x :: xs' => let* acc' := body acc x in ofold body acc' xs'
  end.

(** ** Built-in operations of Python 2 used by the module *)

Fixpoint chars (s : string) : list pyval :=
  match s with
  | EmptyString => []
  | String c s' => VStr (String c EmptyString) :: chars s'
  end.

(** [sub in s] on two strings. *)
Fixpoint is_substring (sub s : string) : bool :=
  String.prefix sub s ||
  match s with
  | EmptyString => false
  | String _ s' => is_substring sub s'
  end.

Definition is_the_string (name : string) (v : pyval) : bool :=
  match v with
  | VStr s => bool_decide (s = name)
  | _ => false
  end.

(** [name in dic]. *)
Definition py_contains (h : heap) (name : string) (dic : pyval) : outcome bool :=
  match dic with
  | VDict a => Ok (bool_decide (is_Some (deref h a !! name)))
  | VStr s => Ok (is_substring name s)
  | VSeq xs => Ok (existsb (is_the_string name) xs)
  | VNone | VInt _ | VFun _ | VObj _ => Raise TypeError
  end.

(** [dic[name]], evaluated after [name in dic] held. *)
Definition py_getitem (h : heap) (name : string) (dic : pyval) : outcome pyval :=
  match dic with
  | VDict a => match deref h a !! name with
               | Some v => Ok v
               | None => Raise KeyError
               end
  | _ => Raise TypeError
  end.

Definition isinstance_dict (v : pyval) : bool :=
  match v with VDict _ => true | _ => false end.

(** The values a [for] loop over [v] visits; a dict yields its keys. *)
Definition py_iter (h : heap) (v : pyval) : outcome (list pyval) :=
  match v with
  | VSeq xs => Ok xs
  | VStr s => Ok (chars s)
  | VDict a => Ok (VStr <$> (map_to_list (deref h a)).*1)
  | VNone | VInt _ | VFun _ | VObj _ => Raise TypeError
  end.

(** [if isinstance(prototypes, dict): prototypes = (prototypes,)] followed
    by the values the loop over [prototypes] visits. *)
Definition parent_list (h : heap) (prototypes : pyval) : outcome (list pyval) :=
  let prototypes :=
    if isinstance_dict prototypes then VSeq [prototypes] else prototypes in
  py_iter h prototypes.

(** [prot.update(d)] for a dict [d]: the entries of [d] overwrite. *)
Definition dict_update (prot d : pydict) : pydict := d ∪ prot.

(** One element of a sequence handed to [dict.update]: it has to be a
    sequence of length two, a key and a value.  Only strings are keys here;
    a list is no key in Python, a tuple may be one, and which of the two keys
    of a dict comes first is not fixed: those runs are [OffModel]. *)
Definition update_item (h : heap) (e : pyval) : outcome (string * pyval) :=
  match e with
  | VSeq [VStr k; v] => Ok (k, v)
  | VSeq [VDict _; _] => Raise TypeError
  | VSeq [_; _] => OffModel
  | VSeq _ => Raise ValueError
  | VStr (String a (String b EmptyString)) =>
      Ok (String a EmptyString, VStr (String b EmptyString))
  | VStr _ => Raise ValueError
  | VDict a => if bool_decide (size (deref h a) = 2) then OffModel
               else Raise ValueError
  | VNone | VInt _ | VFun _ | VObj _ => Raise TypeError
  end.

(** [prot.update(dic)] for any value [dic]. *)
Definition py_update (h : heap) (prot : pydict) (dic : pyval) : outcome pydict :=
  match dic with
  | VDict a => Ok (dict_update prot (deref h a))
  | VSeq xs =>
      ofold (λ acc e, let* kv := update_item h e in Ok (<[kv.1 := kv.2]> acc))
            prot xs
  | VStr s =>
      ofold (λ acc e, let* kv := update_item h e in Ok (<[kv.1 := kv.2]> acc))
            prot (chars s)
  | VNone | VInt _ | VFun _ | VObj _ => Raise TypeError
  end.

(** ** The resolver *)

Fixpoint _get_prototype (fuel : nat) (h : heap) (dic : pyval) (prot : pydict)
  : outcome pydict :=
  match fuel with
  | O => OutOfFuel
  | S fuel' =>
      let* has := py_contains h "prototype" dic in
      let* prot :=
        (if has : bool then
           let* prototypes := py_getitem h "prototype" dic in
           let* prototypes := parent_list h prototypes in
           ofold (λ prot prototype,
                    let* new_prot := _get_prototype fuel' h prototype prot in
                    (* [new_prot] is the object [prot] itself *)
                    Ok (dict_update new_prot new_prot))
                 prot prototypes
         else Ok prot) in
      let* prot := py_update h prot dic in
      Ok (delete "prototype" prot)
  end.

(** The body of the loop over the parents, and the two statements after
    it, named for the proofs. *)
Definition resolver_body (fuel : nat) (h : heap) (prot : pydict) (prototype : pyval)
  : outcome pydict :=
  let* new_prot := _get_prototype fuel h prototype prot in
  Ok (dict_update new_prot new_prot).

Definition resolver_finish (h : heap) (dic : pyval) (prot : pydict)
  : outcome pydict :=
  let* prot := py_update h prot dic in Ok (delete "prototype" prot).

(** Mappings laid over each other from left to right. *)
Definition overlay (acc : pydict) (ms : list pydict) : pydict :=
  foldl dict_update acc ms.

(** [ms] are the mappings the values [ps] resolve to. *)
Definition resolved (fuel : nat) (h : heap) (ps : list pyval) (ms : list pydict)
  : Prop :=
  Forall2 (λ p mp, _get_prototype fuel h p ∅ = Ok mp) ps ms.

(** ** The collaborators of the spawner

    The object store, the dbref lookup, the random numbers and the functions
    held by prototypes lie outside the module.  Every call to one of them is
    an event; the events made so far form the trace, and what a collaborator
    answers is a function of that trace. *)

Record create_kwargs : Type := CreateKwargs {
  db_key : pyval;
  db_location : pyval;
  db_home : pyval;
  db_destination : pyval;
  db_typeclass_path : pyval
}.

Inductive event : Type :=
| ERandint                                  (* randint(1, 100000) *)
| EHandleDbref (inp : pyval)                (* _handle_dbref(inp) *)
| ECall (field : string) (f : fn)           (* value(), for the field *)
| EObjectDB (iobj : nat) (kw : create_kwargs)  (* ObjectDB( **kw) *)
| ETypeclass (iobj : nat)                   (* dbobj.typeclass *)
| EBasetypeSetup (iobj : nat)               (* obj.basetype_setup() *)
| EAtObjectCreation (iobj : nat)            (* obj.at_object_creation() *)
| EPermissionsAdd (iobj : nat) (v : pyval)  (* obj.permissions.add(v) *)
| ELocksAdd (iobj : nat) (v : pyval)        (* obj.locks.add(v) *)
| EAliasesAdd (iobj : nat) (v : pyval)      (* obj.aliases.add(v) *)
| ENattributesAdd (iobj : nat) (key : string) (value : pyval)
                                            (* obj.nattributes.add(key, value) *)
| EBatchAdd (iobj : nat) (keys : list string) (values : list pyval)
                                            (* obj.attributes.batch_add(keys, values) *)
| EPosthookSetup (iobj : nat).              (* obj.basetype_posthook_setup() *)

Definition trace := list event.

Record world : Type := World {
  randint : trace → Z;
  handle_dbref : pyval → trace → exn + pyval;
  call : fn → trace → exn + pyval;
  store_raises : event → trace → option exn;
  DEFAULT_HOME : pyval;
  BASE_OBJECT_TYPECLASS : pyval
}.

(** ** Computations that make events and may raise *)

Definition M (A : Type) : Type := trace → outcome A * trace.

Definition mret {A} (a : A) : M A := λ t, (Ok a, t).

Definition mbind {A B} (m : M A) (k : A → M B) : M B := λ t,
  match m t with
  | (Ok a, t') => k a t'
  | (Raise e, t') => (Raise e, t')
  | (OutOfFuel, t') => (OutOfFuel, t')
  | (OffModel, t') => (OffModel, t')
  end.

Definition lift {A} (o : outcome A) : M A := λ t, (o, t).

Definition of_sum {A} (r : exn + A) : outcome A :=
  match r with inl e => Raise e | inr a => Ok a end.

Declare Scope eff_scope.
Delimit Scope eff_scope with eff.
Notation "'do*' x ':=' m 'in' k" := (mbind m (λ x, k))
  (at level 10, x name, m at level 100, k at level 200) : eff_scope.
Local Open Scope eff_scope.

Fixpoint mfold {A B} (body : A → B → M A) (acc : A) (xs : list B) : M A :=
  match xs with
  | [] => mret acc
  | x :: xs' => do* acc' := body acc x in mfold body acc' xs'
  end.

Definition mwhen (b : bool) (m : M unit) : M unit :=
  if b then m else mret ().

(** A call into the object store. *)
Definition store_call (w : world) (e : event) : M unit := λ t,
  (match store_raises w e t with Some x => Raise x | None => Ok () end,
   t ++ [e]).

(** ** More built-in operations *)

Definition callable (v : pyval) : bool :=
  match v with VFun _ => true | _ => false end.

(** [value()]. *)
Definition py_call (w : world) (field : string) (value : pyval) : M pyval :=
  match value with
  | VFun f => λ t, (of_sum (call w f t), t ++ [ECall field f])
  | _ => lift (Raise TypeError)
  end.

(** The truth value of [v] in an [if]. *)
Definition truthy (h : heap) (v : pyval) : bool :=
  match v with
  | VNone => false
  | VInt z => negb (Z.eqb z 0)
  | VStr s => negb (bool_decide (s = ""))
  | VSeq xs => negb (bool_decide (xs = []))
  | VDict a => negb (bool_decide (deref h a = ∅))
  | VFun _ | VObj _ => true
  end.

(** [prot.pop(k, dflt)]: the value and the dict that is left. *)
Definition dict_pop (k : string) (dflt : pyval) (prot : pydict) : pyval * pydict :=
  (default dflt (prot !! k), delete k prot).

Fixpoint zeros (n : nat) : string :=
  match n with O => "" | S n' => String "0"%char (zeros n') end.

(** ["%06i" % n]. *)
Definition fmt_06i (n : Z) : string :=
  let sign := if (n <? 0)%Z then "-" else "" in
  let digits := pretty (Z.abs_N n) in
  sign +:+ zeros (6 - String.length sign - String.length digits) +:+ digits.

Fixpoint after_first (c : ascii) (s : string) : option string :=
  match s with
  | EmptyString => None
  | String c' s' => if Ascii.eqb c' c then Some s' else after_first c s'
  end.

(** [key.split("_", 1)[1]]. *)
Definition split_1_snd (key : string) : outcome string :=
  match after_first "_"%char key with
  | Some rest => Ok rest
  | None => Raise IndexError
  end.

(** ** The spawner *)

Definition _CREATE_OBJECT_KWARGS : list string :=
  ["key"; "location"; "home"; "destination"].

Definition _handle_dbref (w : world) (inp : pyval) : M pyval := λ t,
  (of_sum (handle_dbref w inp t), t ++ [EHandleDbref inp]).

Definition py_randint (w : world) : M Z := λ t, (Ok (randint w t), t ++ [ERandint]).

(** The tuple [spawn] packs for [_batch_create_object]. *)
Record objparam : Type := ObjParam {
  op_create : create_kwargs;
  op_permissions : pyval;
  op_locks : pyval;
  op_aliases : pyval;
  op_nattributes : pydict;
  op_attributes : pydict
}.

(** One item of the first comprehension. *)
Definition nattribute_step (acc : pydict) (kv : string * pyval) : outcome pydict :=
  let key := kv.1 in
  let value := kv.2 in
  if String.prefix "ndb_" key then
    let* name := split_1_snd key in
    Ok (<[name := if callable value then value else value]> acc)
  else Ok acc.

(** [dict((key.split("_", 1)[1], value if callable(value) else value)
          for key, value in prot.items() if key.startswith("ndb_"))] *)
Definition nattributes_of (prot : pydict) : outcome pydict :=
  ofold nattribute_step ∅ (map_to_list prot).

(** The condition of the second comprehension. *)
Definition is_attribute (nattributes : pydict) (key : string) : bool :=
  negb (bool_decide (key ∈ _CREATE_OBJECT_KWARGS)
        || bool_decide (is_Some (nattributes !! key))).

(** One item of the second comprehension. *)
Definition attribute_step (w : world) (nattributes : pydict)
    (acc : pydict) (kv : string * pyval) : M pydict :=
  let key := kv.1 in
  let value := kv.2 in
  if is_attribute nattributes key then
    do* v := (if callable value then py_call w key value else mret value) in
    mret (<[key := v]> acc)
  else mret acc.

(** [dict((key, value() if callable(value) else value)
          for key, value in prot.items()
          if not (key in _CREATE_OBJECT_KWARGS or key in nattributes))] *)
Definition attributes_of (w : world) (prot nattributes : pydict) : M pydict :=
  mfold (attribute_step w nattributes) ∅ (map_to_list prot).

(** The body of the loop of [spawn]: [None] stands for [continue]. *)
Definition spawn_params (w : world) (h : heap) (fuel : nat) (prototype : pyval)
  : M (option objparam) :=
  do* prot := lift (_get_prototype fuel h prototype ∅) in
  if bool_decide (prot = ∅) then mret None else
  do* n := py_randint w in
  let '(key, prot) := dict_pop "key" (VStr ("Spawned Object " +:+ fmt_06i n)) prot in
  let '(location, prot) := dict_pop "location" VNone prot in
  do* location := _handle_dbref w location in
  let '(home, prot) := dict_pop "home" (DEFAULT_HOME w) prot in
  do* home := _handle_dbref w home in
  let '(destination, prot) := dict_pop "destination" VNone prot in
  do* destination := _handle_dbref w destination in
  let '(typeclass, prot) := dict_pop "typeclass" (BASE_OBJECT_TYPECLASS w) prot in
  let create_kwargs := CreateKwargs key location home destination typeclass in
  let '(permission_string, prot) := dict_pop "permissions" (VStr "") prot in
  let '(lock_string, prot) := dict_pop "locks" (VStr "") prot in
  let '(alias_string, prot) := dict_pop "aliases" (VStr "") prot in
  do* nattributes := lift (nattributes_of prot) in
  do* attributes := attributes_of w prot nattributes in
  mret (Some (ObjParam create_kwargs permission_string lock_string alias_string
                       nattributes attributes)).

(** The object made by [ObjectDB( **kw)]; its typeclass object is
    identified with it. *)
Record dbobj : Type := DbObj {
  dbobj_index : nat;
  dbobj_kwargs : create_kwargs
}.

(** [[ObjectDB( **objparam[0]) for objparam in objparams]], from position
    [iobj] on. *)
Fixpoint create_all (w : world) (iobj : nat) (objparams : list objparam)
  : M (list dbobj) :=
  match objparams with
  | [] => mret []
  | objparam :: rest =>
      do* _ := store_call w (EObjectDB iobj (op_create objparam)) in
      do* dbobjs := create_all w (S iobj) rest in
      mret (DbObj iobj (op_create objparam) :: dbobjs)
  end.

(** The body of the loop of [_batch_create_object]. *)
Definition setup_object (w : world) (h : heap) (objparams : list objparam)
    (objs : list dbobj) (entry : nat * dbobj) : M (list dbobj) :=
  let iobj := entry.1 in
  let dbobj := entry.2 in
  match objparams !! iobj with
  | None => lift (Raise IndexError)
  | Some objparam =>
      do* _ := store_call w (ETypeclass iobj) in
      let obj := dbobj in
      do* _ := store_call w (EBasetypeSetup iobj) in
      do* _ := store_call w (EAtObjectCreation iobj) in
      do* _ := mwhen (truthy h (op_permissions objparam))
                 (store_call w (EPermissionsAdd iobj (op_permissions objparam))) in
      do* _ := mwhen (truthy h (op_locks objparam))
                 (store_call w (ELocksAdd iobj (op_locks objparam))) in
      do* _ := mwhen (truthy h (op_aliases objparam))
                 (store_call w (EAliasesAdd iobj (op_aliases objparam))) in
      do* _ := mwhen (negb (bool_decide (op_nattributes objparam = ∅)))
                 (mfold (λ _ kv, store_call w (ENattributesAdd iobj kv.1 kv.2))
                        () (map_to_list (op_nattributes objparam))) in
      do* _ := mwhen (negb (bool_decide (op_attributes objparam = ∅)))
                 (let keys := (map_to_list (op_attributes objparam)).*1 in
                  let values := (map_to_list (op_attributes objparam)).*2 in
                  store_call w (EBatchAdd iobj keys values)) in
      do* _ := store_call w (EPosthookSetup iobj) in
      mret (objs ++ [obj])
  end.

Definition enumerate {A} (xs : list A) : list (nat * A) := imap pair xs.

Definition _batch_create_object (w : world) (h : heap) (objparams : list objparam)
  : M (list dbobj) :=
  do* dbobjs := create_all w 0 objparams in
  mfold (setup_object w h objparams) [] (enumerate dbobjs).

(** One round of the loop of [spawn]. *)
Definition spawn_step (w : world) (h : heap) (fuel : nat)
    (objsparams : list objparam) (prototype : pyval) : M (list objparam) :=
  do* r := spawn_params w h fuel prototype in
  mret (match r with
        | Some objparam => objsparams ++ [objparam]
        | None => objsparams
        end).

Definition spawn (w : world) (h : heap) (fuel : nat) (prototypes : list pyval)
  : M (list dbobj) :=
  do* objsparams := mfold (spawn_step w h fuel) [] prototypes in
  _batch_create_object w h objsparams.

(** ** The prototypes of the module's own test *)

Definition GOBLIN : pydict :=
  {[ "key" := VStr "goblin grunt"; "health" := VFun 0;
     "resists" := VSeq [VStr "cold"; VStr "poison"];
     "attacks" := VSeq [VStr "fists"];
     "weaknesses" := VSeq [VStr "fire"; VStr "light"] ]}.

Definition GOBLIN_WIZARD : pydict :=
  {[ "prototype" := VDict 1; "key" := VStr "goblin wizard";
     "spells" := VSeq [VStr "fire ball"; VStr "lighting bolt"] ]}.

Definition GOBLIN_ARCHER : pydict :=
  {[ "prototype" := VDict 1; "key" := VStr "goblin archer";
     "attacks" := VSeq [VStr "short bow"] ]}.

Definition ARCHWIZARD : pydict :=
  {[ "attacks" := VSeq [VStr "archwizard staff"] ]}.

Definition GOBLIN_ARCHWIZARD : pydict :=
  {[ "key" := VStr "goblin archwizard";
     "prototype" := VSeq [VDict 2; VDict 4] ]}.

(** [NOBODY] at address 0, [GOBLIN] at 1, and so on. *)
Definition test_heap : heap :=
  [∅; GOBLIN; GOBLIN_WIZARD; GOBLIN_ARCHER; ARCHWIZARD; GOBLIN_ARCHWIZARD].

(** A world in which nothing raises: [randint] gives 7, dbrefs are handed
    back, the function [f] returns [20 + f]. *)
Definition quiet_world : world :=
  {| randint := λ _, 7%Z;
     handle_dbref := λ inp _, inr inp;
     call := λ f _, inr (VInt (20 + Z.of_nat f));
     store_raises := λ _ _, None;
     DEFAULT_HOME := VStr "#2";
     BASE_OBJECT_TYPECLASS := VStr "src.objects.objects.Object" |}.

(** ** The parent graph *)

(** [p] is one of the values the loop of [_get_prototype] visits for [x]. *)
Definition parent_of (h : heap) (x p : pyval) : Prop :=
  ∃ a v ps, x = VDict a ∧ deref h a !! "prototype" = Some v ∧
            parent_list h v = Ok ps ∧ p ∈ ps.

Definition ancestor (h : heap) : pyval → pyval → Prop := tc (parent_of h).

(** The parent graph on dict objects. *)
Definition parent_addr (h : heap) (a b : addr) : Prop :=
  parent_of h (VDict a) (VDict b).

(** No dict object reachable from [a] through parents is its own ancestor. *)
Definition acyclic (h : heap) (a : addr) : Prop :=
  ∀ b, rtc (parent_addr h) a b → ¬ tc (parent_addr h) b b.

(** A [prototype] value that is a mapping or an ordered collection of
    mappings. *)
Definition mapping_or_mappings (v : pyval) : bool :=
  match v with
  | VDict _ => true
  | VSeq xs => forallb isinstance_dict xs
  | _ => false
  end.

(** Every [prototype] field reachable from [a] is of that shape. *)
Definition well_formed (h : heap) (a : addr) : Prop :=
  ∀ b v, rtc (parent_addr h) a b → deref h b !! "prototype" = Some v →
         mapping_or_mappings v = true.

(** ** Vocabulary for the runs of the spawner *)

(** The resolved mapping after the eight [pop]s of [spawn]. *)
Definition after_pops (prot : pydict) : pydict :=
  delete "aliases" (delete "locks" (delete "permissions" (delete "typeclass"
    (delete "destination" (delete "home" (delete "location"
      (delete "key" prot))))))).

(** Every run of [m] only appends events, and each of them satisfies [P]. *)
Definition emits {A} (P : event → Prop) (m : M A) : Prop :=
  ∀ t r t', m t = (r, t') → ∃ evs, t' = t ++ evs ∧ Forall P evs.

(** The fields [spawn] pops before it builds the attributes. *)
Definition reserved_fields : list string :=
  ["key"; "location"; "home"; "destination"; "typeclass";
   "permissions"; "locks"; "aliases"].

(** The calls the loop of [_batch_create_object] makes for the object at
    position [iobj] when none of them raises. *)
Definition setup_events (h : heap) (iobj : nat) (objparam : objparam) : list event :=
  [ETypeclass iobj; EBasetypeSetup iobj; EAtObjectCreation iobj]
  ++ (if truthy h (op_permissions objparam)
      then [EPermissionsAdd iobj (op_permissions objparam)] else [])
  ++ (if truthy h (op_locks objparam)
      then [ELocksAdd iobj (op_locks objparam)] else [])
  ++ (if truthy h (op_aliases objparam)
      then [EAliasesAdd iobj (op_aliases objparam)] else [])
  ++ ((λ kv, ENattributesAdd iobj kv.1 kv.2)
        <$> map_to_list (op_nattributes objparam))
  ++ (if bool_decide (op_attributes objparam = ∅) then []
      else [EBatchAdd iobj (map_to_list (op_attributes objparam)).*1
                           (map_to_list (op_attributes objparam)).*2])
  ++ [EPosthookSetup iobj].

(** The object a call of the loop of [_batch_create_object] is made on. *)
Definition event_object (e : event) : option nat :=
  match e with
  | ETypeclass i | EBasetypeSetup i | EAtObjectCreation i
  | EPermissionsAdd i _ | ELocksAdd i _ | EAliasesAdd i _
  | ENattributesAdd i _ _ | EBatchAdd i _ _ | EPosthookSetup i => Some i
  | ERandint | EHandleDbref _ | ECall _ _ | EObjectDB _ _ => None
  end.

(** Every run of [m] ends at the first call into the store that raises, with
    the exception of that call. *)
Definition halts_at_raise {A} (w : world) (m : M A) : Prop :=
  ∀ t r t', m t = (r, t') →
    ∃ evs, t' = t ++ evs ∧
      ∀ pre ev post x,
        evs = pre ++ ev :: post →
        store_raises w ev (t ++ pre) = Some x →
        post = [] ∧ r = Raise x.

(** A world in which adding permissions to the first object of a batch
    raises, and nothing else does. *)
Definition failing_world : world :=
  {| randint := λ _, 7%Z;
     handle_dbref := λ inp _, inr inp;
     call := λ f _, inr (VInt (20 + Z.of_nat f));
     store_raises := λ e _, match e with
                            | EPermissionsAdd 0 _ => Some (External 1)
                            | _ => None
                            end;
     DEFAULT_HOME := VStr "#2";
     BASE_OBJECT_TYPECLASS := VStr "src.objects.objects.Object" |}.

(** Two prototypes with permissions. *)
Definition BUILDER : pydict :=
  {[ "key" := VStr "builder"; "permissions" := VStr "Builders" ]}.

Definition WIZARD : pydict :=
  {[ "key" := VStr "wizard"; "permissions" := VStr "Wizards" ]}.

(** What [GOBLIN_ARCHWIZARD] resolves to. *)
Definition GOBLIN_ARCHWIZARD_resolved : pydict :=
  {[ "key" := VStr "goblin archwizard"; "health" := VFun 0;
     "resists" := VSeq [VStr "cold"; VStr "poison"];
     "attacks" := VSeq [VStr "archwizard staff"];
     "weaknesses" := VSeq [VStr "fire"; VStr "light"];
     "spells" := VSeq [VStr "fire ball"; VStr "lighting bolt"] ]}.

(** What a round of [spawn] packs for [GOBLIN] in the quiet world. *)
Definition GOBLIN_objparam : objparam :=
  ObjParam
    (CreateKwargs (VStr "goblin grunt") VNone (VStr "#2") VNone
                  (VStr "src.objects.objects.Object"))
    (VStr "") (VStr "") (VStr "") ∅
    {[ "health" := VInt 20;
       "resists" := VSeq [VStr "cold"; VStr "poison"];
       "attacks" := VSeq [VStr "fists"];
       "weaknesses" := VSeq [VStr "fire"; VStr "light"] ]}.

(** A prototype with functions in popped fields, and what is packed for it. *)
Definition LAZY_KEY : pydict := {[ "key" := VFun 3; "locks" := VFun 4 ]}.

Definition LAZY_KEY_objparam : objparam :=
  ObjParam
    (CreateKwargs (VFun 3) VNone (VStr "#2") VNone
                  (VStr "src.objects.objects.Object"))
    (VStr "") (VFun 4) (VStr "") ∅ ∅.

(** Two prototypes with a transient field. *)
Definition GHOST : pydict :=
  {[ "key" := VStr "ghost"; "ndb_mood" := VStr "shy" ]}.

Definition MOODY_GHOST : pydict :=
  {[ "key" := VStr "ghost"; "ndb_mood" := VStr "shy"; "mood" := VStr "bold" ]}.

Definition GHOST_objparam : objparam :=
  ObjParam
    (CreateKwargs (VStr "ghost") VNone (VStr "#2") VNone
                  (VStr "src.objects.objects.Object"))
    (VStr "") (VStr "") (VStr "")
    {[ "mood" := VStr "shy" ]}
    {[ "ndb_mood" := VStr "shy" ]}.

(** No call of the loop on an object comes after a call on a later object. *)
Definition sorted_by_object (evs : list event) : Prop :=
  ∀ n m e1 e2 i j,
    n ≤ m → evs !! n = Some e1 → evs !! m = Some e2 →
    event_object e1 = Some i → event_object e2 = Some j → i ≤ j.

(** What [spawn] packs for [BUILDER] and for [WIZARD]. *)
Definition BUILDER_objparam : objparam :=
  ObjParam
    (CreateKwargs (VStr "builder") VNone (VStr "#2") VNone
                  (VStr "src.objects.objects.Object"))
    (VStr "Builders") (VStr "") (VStr "") ∅ ∅.

Definition WIZARD_objparam : objparam :=
  ObjParam
    (CreateKwargs (VStr "wizard") VNone (VStr "#2") VNone
                  (VStr "src.objects.objects.Object"))
    (VStr "Wizards") (VStr "") (VStr "") ∅ ∅.

(** The events of the batch of [BUILDER] and [WIZARD] in the failing world. *)
Definition failing_trace : trace :=
  [EObjectDB 0 (op_create BUILDER_objparam);
   EObjectDB 1 (op_create WIZARD_objparam);
   ETypeclass 0; EBasetypeSetup 0; EAtObjectCreation 0;
   EPermissionsAdd 0 (VStr "Builders")].

(** ** More vocabulary, for the properties beyond the claims *)

(** A call into the object store, as opposed to the calls [spawn] makes
    while it prepares the tuples. *)
Definition is_store_event (e : event) : bool :=
  match e with
  | ERandint | EHandleDbref _ | ECall _ _ => false
  | _ => true
  end.

(** A prototype that is its own parent. *)
Definition OUROBOROS : pydict :=
  {[ "prototype" := VDict 0; "key" := VStr "snake" ]}.

(** [GOBLIN] with two children that differ only in how they name it. *)
Definition BARE_CHILD : pydict :=
  {[ "prototype" := VDict 0; "key" := VStr "imp" ]}.

Definition TUPLE_CHILD : pydict :=
  {[ "prototype" := VSeq [VDict 0]; "key" := VStr "imp" ]}.

Definition child_heap : heap := [GOBLIN; BARE_CHILD; TUPLE_CHILD].

(** What [GOBLIN_WIZARD] resolves to. *)
Definition GOBLIN_WIZARD_resolved : pydict :=
  {[ "key" := VStr "goblin wizard"; "health" := VFun 0;
     "resists" := VSeq [VStr "cold"; VStr "poison"];
     "attacks" := VSeq [VStr "fists"];
     "weaknesses" := VSeq [VStr "fire"; VStr "light"];
     "spells" := VSeq [VStr "fire ball"; VStr "lighting bolt"] ]}.

(** The events a round of [spawn] makes for [GOBLIN] in the quiet world. *)
Definition GOBLIN_trace : trace :=
  [ERandint; EHandleDbref VNone; EHandleDbref (VStr "#2");
   EHandleDbref VNone; ECall "health" 0].

(** A prototype whose parent is an integer. *)
Definition BROKEN : pydict := {[ "prototype" := VInt 5; "key" := VStr "broken" ]}.

(** Two parents without a common field, and two children that name them
    in opposite orders. *)
Definition ARMOUR : pydict := {[ "armour" := VInt 3 ]}.
Definition SPEED : pydict := {[ "speed" := VInt 7 ]}.
Definition KNIGHT : pydict :=
  {[ "prototype" := VSeq [VDict 0; VDict 1]; "key" := VStr "knight" ]}.
Definition THGINK : pydict :=
  {[ "prototype" := VSeq [VDict 1; VDict 0]; "key" := VStr "knight" ]}.
Definition knight_heap : heap := [ARMOUR; SPEED; KNIGHT; THGINK].





(** ** The depth of the recursion

    The fuel of [_get_prototype] is the number of nested calls of the
    resolver the interpreter still allows when the resolver is entered. *)

(** A chain of [n] parent references starts at the dict object [a]:
    resolving [a] nests [S n] calls of the resolver. *)
Inductive parent_chain (h : heap) : addr → nat → Prop :=
| parent_chain_O a : parent_chain h a 0
| parent_chain_S a b n :
    parent_addr h a b → parent_chain h b n → parent_chain h a (S n).

(** [sys.getrecursionlimit()] as the interpreter is shipped; the calls
    already on the stack count too, so the resolver has less than this. *)
Definition recursion_limit : nat := 1000.

(** A heap of [n] dicts in a line: the dict at address [S j] names the dict
    at [j] as its only parent, the dict at 0 has none. *)
Definition link (i : nat) : pydict :=
  match i with
  | O => {[ "key" := VStr "goblin grunt" ]}
  | S j => {[ "prototype" := VDict j ]}
  end.

Definition chain (n : nat) : heap := link <$> seq 0 n.

(** A prototype with a function in a field shadowed by a transient field,
    and a function in a transient field; what is packed for it. *)
Definition SHADOWED : pydict :=
  {[ "key" := VStr "ghost"; "mood" := VFun 1; "ndb_mood" := VInt 1;
     "ndb_glow" := VFun 5 ]}.

Definition SHADOWED_objparam : objparam :=
  ObjParam
    (CreateKwargs (VStr "ghost") VNone (VStr "#2") VNone
                  (VStr "src.objects.objects.Object"))
    (VStr "") (VStr "") (VStr "")
    {[ "mood" := VInt 1; "glow" := VFun 5 ]}
    {[ "ndb_mood" := VInt 1; "ndb_glow" := VInt 25 ]}.

Definition SHADOWED_trace : trace :=
  [ERandint; EHandleDbref VNone; EHandleDbref (VStr "#2"); EHandleDbref VNone;
   ECall "ndb_glow" 5].
(** ** Facts about outcomes and loops *)

Lemma ofmap_ofmap {A B C} (f : A → B) (g : B → C) (m : outcome A) :
  ofmap g (ofmap f m) = ofmap (g ∘ f) m.
Proof. by destruct m. Qed.

Lemma ofmap_ext {A B} (f g : A → B) (m : outcome A) :
  (∀ a, m = Ok a → f a = g a) → ofmap f m = ofmap g m.
Proof. destruct m; simpl; intros Hfg; [f_equal; auto | done..]. Qed.

Lemma obind_Ok {A B} (m : outcome A) (k : A → outcome B) b :
  obind m k = Ok b ↔ ∃ a, m = Ok a ∧ k a = Ok b.
Proof.
  destruct m; simpl; split; try done; try (intros (? & ? & ?); done).
  - eauto.
  - by intros (? & [= ->] & ?).
Qed.

Lemma ofold_app {A B} (body : A → B → outcome A) acc xs ys :
  ofold body acc (xs ++ ys) =
  let* acc' := ofold body acc xs in ofold body acc' ys.
Proof.
  revert acc. induction xs as [|x xs IH]; intros acc; simpl; [done|].
  destruct (body acc x); simpl; auto.
Qed.

(** A loop ends like its bodies: what no body does, the loop does not. *)
Lemma ofold_ends {A B} (P : outcome A → Prop) (body : A → B → outcome A) xs :
  (∀ a, P (Ok a)) →
  (∀ acc x, x ∈ xs → P (body acc x)) →
  ∀ acc, P (ofold body acc xs).
Proof.
  intros HOk. induction xs as [|x xs IH]; intros Hbody acc; simpl; [done|].
  pose proof (Hbody acc x ltac:(left)) as Hx.
  destruct (body acc x); simpl; try done.
  apply IH. intros; apply Hbody; by right.
Qed.

(** Two bodies that agree wherever the first one ends without running out
    of fuel give the same loop. *)
Lemma ofold_agree {A B} (body1 body2 : A → B → outcome A) xs :
  (∀ acc x, x ∈ xs → body1 acc x ≠ OutOfFuel → body2 acc x = body1 acc x) →
  ∀ acc, ofold body1 acc xs ≠ OutOfFuel →
         ofold body2 acc xs = ofold body1 acc xs.
Proof.
  induction xs as [|x xs IH]; intros Hbody acc; simpl; [done|].
  intros Hne.
  assert (body1 acc x ≠ OutOfFuel) as Hx by (by intros E; rewrite E in Hne).
  rewrite (Hbody acc x ltac:(left) Hx).
  destruct (body1 acc x); simpl in *; try done.
  apply IH; [|done]. intros; apply Hbody; [by right|done].
Qed.

(** ** Facts about the resolver *)



Lemma _get_prototype_S fuel h dic prot :
  _get_prototype (S fuel) h dic prot =
  let* has := py_contains h "prototype" dic in
  let* prot :=
    (if has : bool then
       let* prototypes := py_getitem h "prototype" dic in
       let* prototypes := parent_list h prototypes in
       ofold (resolver_body fuel h) prot prototypes
     else Ok prot) in
  resolver_finish h dic prot.
Proof. reflexivity. Qed.

Lemma dict_update_self (prot : pydict) : dict_update prot prot = prot.
Proof. unfold dict_update. apply (idemp_L (∪)). Qed.

Lemma resolver_body_eq fuel h prot prototype :
  resolver_body fuel h prot prototype = _get_prototype fuel h prototype prot.
Proof.
  unfold resolver_body. destruct (_get_prototype _ _ _ _); simpl; [|done..].
  by rewrite dict_update_self.
Qed.

(** The mapping the resolver returns has no [prototype] key. *)
Lemma _get_prototype_pops fuel h dic prot m :
  _get_prototype fuel h dic prot = Ok m → m !! "prototype" = None.
Proof.
  destruct fuel as [|fuel]; [done|]. rewrite _get_prototype_S.
  intros (has & _ & (F & _ & Hfin)%obind_Ok)%obind_Ok.
  unfold resolver_finish in Hfin.
  apply obind_Ok in Hfin as (p & _ & [= <-]). apply lookup_delete_eq.
Qed.

(** More fuel does not change a result. *)
Lemma _get_prototype_fuel_S fuel h dic prot :
  _get_prototype fuel h dic prot ≠ OutOfFuel →
  _get_prototype (S fuel) h dic prot = _get_prototype fuel h dic prot.
Proof.
  revert dic prot. induction fuel as [|fuel IH]; intros dic prot; [done|].
  rewrite (_get_prototype_S (S fuel)), (_get_prototype_S fuel).
  destruct (py_contains h "prototype" dic) as [[]| | |]; simpl; try done.
  destruct (py_getitem h "prototype" dic) as [v| | |]; simpl; try done.
  destruct (parent_list h v) as [ps| | |]; simpl; try done.
  intros Hne.
  rewrite (ofold_agree (resolver_body fuel h) (resolver_body (S fuel) h)); [done| |].
  - intros acc x _. rewrite !resolver_body_eq. apply IH.
  - intros E. by rewrite E in Hne.
Qed.

Lemma _get_prototype_fuel_le (fuel fuel' : nat) h dic prot :
  fuel ≤ fuel' →
  _get_prototype fuel h dic prot ≠ OutOfFuel →
  _get_prototype fuel' h dic prot = _get_prototype fuel h dic prot.
Proof.
  induction 1 as [|fuel' _ IH]; [done|]. intros Hne.
  rewrite <-(IH Hne). apply _get_prototype_fuel_S. by rewrite (IH Hne).
Qed.

Lemma _get_prototype_fuel_Ok (fuel fuel' : nat) h dic prot m :
  fuel ≤ fuel' →
  _get_prototype fuel h dic prot = Ok m →
  _get_prototype fuel' h dic prot = Ok m.
Proof.
  intros Hle Hm. rewrite <-Hm. apply _get_prototype_fuel_le; [done|].
  by rewrite Hm.
Qed.

(** Two runs that both return agree, whatever their fuel. *)
Lemma _get_prototype_fuel_agree fuel fuel' h dic prot m m' :
  _get_prototype fuel h dic prot = Ok m →
  _get_prototype fuel' h dic prot = Ok m' →
  m = m'.
Proof.
  intros Hm Hm'. destruct (Nat.le_ge_cases fuel fuel') as [Hle|Hle].
  - rewrite (_get_prototype_fuel_Ok _ _ _ _ _ _ Hle Hm) in Hm'. congruence.
  - rewrite (_get_prototype_fuel_Ok _ _ _ _ _ _ Hle Hm') in Hm. congruence.
Qed.

(** *** The accumulator

    A call on an accumulator [prot] returns what the call on the empty
    accumulator returns, laid over [prot]. *)

Lemma ofmap_Ok {A B} (f : A → B) (m : outcome A) b :
  ofmap f m = Ok b ↔ ∃ a, m = Ok a ∧ b = f a.
Proof.
  unfold ofmap. rewrite obind_Ok. split; intros (a & ? & ?); exists a; split;
    congruence.
Qed.

Lemma update_items_acc h (xs : list pyval) (prot : pydict) :
  ofold (λ acc e, let* kv := update_item h e in Ok (<[kv.1 := kv.2]> acc)) prot xs
  = ofmap (λ r, r ∪ prot)
      (ofold (λ acc e, let* kv := update_item h e in Ok (<[kv.1 := kv.2]> acc)) ∅ xs).
Proof.
  revert prot. induction xs as [|x xs IH]; intros prot; simpl.
  - by rewrite (left_id_L ∅ (∪)).
  - destruct (update_item h x) as [[k v]| | |]; simpl; [|done..].
    rewrite (IH (<[k:=v]> prot)), (IH (<[k:=v]> ∅)), ofmap_ofmap.
    apply ofmap_ext. intros r _; simpl.
    by rewrite insert_empty, <-(assoc_L (∪)), <-insert_union_singleton_l.
Qed.

Lemma py_update_acc h dic (prot : pydict) :
  py_update h prot dic = ofmap (λ r, r ∪ prot) (py_update h ∅ dic).
Proof.
  destruct dic; simpl; try done.
  - apply update_items_acc.
  - apply update_items_acc.
  - unfold dict_update. by rewrite (right_id_L ∅ (∪)).
Qed.

Lemma resolver_finish_acc h dic (prot : pydict) :
  resolver_finish h dic prot =
  ofmap (λ r, r ∪ delete "prototype" prot) (resolver_finish h dic ∅).
Proof.
  unfold resolver_finish. rewrite py_update_acc.
  change (let* p := ?m in Ok (delete "prototype" p))
    with (ofmap (delete "prototype") m).
  rewrite !ofmap_ofmap. apply ofmap_ext. intros r _; simpl.
  apply delete_union.
Qed.

Lemma delete_prototype_id (m : pydict) :
  m !! "prototype" = None → delete "prototype" m = m.
Proof. apply delete_id. Qed.

Lemma resolver_loop_acc fuel h (ps : list pyval) :
  (∀ p prot, _get_prototype fuel h p prot =
     ofmap (λ r, r ∪ delete "prototype" prot) (_get_prototype fuel h p ∅)) →
  ∀ prot : pydict,
    ofmap (delete "prototype") (ofold (resolver_body fuel h) prot ps) =
    ofmap (λ r, r ∪ delete "prototype" prot)
      (ofmap (delete "prototype") (ofold (resolver_body fuel h) ∅ ps)).
Proof.
  intros Hacc. induction ps as [|p ps IH]; intros prot; simpl.
  - by rewrite delete_empty, (left_id_L ∅ (∪)).
  - rewrite !resolver_body_eq, (Hacc p prot).
    destruct (_get_prototype fuel h p ∅) as [r| | |] eqn:Hr; simpl; [|done..].
    rewrite (IH (r ∪ delete "prototype" prot)), (IH r).
    destruct (ofold (resolver_body fuel h) ∅ ps) as [y| | |]; simpl; [|done..].
    rewrite delete_union, delete_delete_eq.
    by rewrite (assoc_L (∪)).
Qed.

Lemma _get_prototype_acc fuel h dic (prot : pydict) :
  _get_prototype fuel h dic prot =
  ofmap (λ r, r ∪ delete "prototype" prot) (_get_prototype fuel h dic ∅).
Proof.
  revert dic prot. induction fuel as [|fuel IH]; intros dic prot; [done|].
  rewrite !_get_prototype_S.
  destruct (py_contains h "prototype" dic) as [[]| | |]; simpl; try done.
  - destruct (py_getitem h "prototype" dic) as [v| | |]; simpl; try done.
    destruct (parent_list h v) as [ps| | |]; simpl; try done.
    pose proof (resolver_loop_acc fuel h ps IH prot) as Hloop.
    destruct (ofold (resolver_body fuel h) prot ps) as [F1| | |],
             (ofold (resolver_body fuel h) ∅ ps) as [F0| | |];
      simpl in *; try done.
    injection Hloop as Hloop.
    rewrite (resolver_finish_acc h dic F1), (resolver_finish_acc h dic F0).
    rewrite ofmap_ofmap, Hloop. apply ofmap_ext. intros r _; simpl.
    by rewrite (assoc_L (∪)).
  - apply resolver_finish_acc.
Qed.

Lemma resolver_loop_Ok fuel h ps (prot F : pydict) :
  prot !! "prototype" = None →
  ofold (resolver_body fuel h) prot ps = Ok F →
  ∃ ms, resolved fuel h ps ms ∧ F = overlay prot ms.
Proof.
  revert prot. induction ps as [|p ps IH]; intros prot Hprot; simpl.
  - intros [= <-]. exists []. split; [constructor|done].
  - rewrite resolver_body_eq, _get_prototype_acc.
    destruct (_get_prototype fuel h p ∅) as [r| | |] eqn:Hr; simpl; [|done..].
    rewrite (delete_prototype_id prot Hprot). intros HF.
    apply IH in HF as (ms & Hms & ->).
    + exists (r :: ms). split; [by constructor|done].
    + apply lookup_union_None. split; [|done].
      by apply _get_prototype_pops in Hr.
Qed.

Lemma overlay_snoc (acc : pydict) ms m :
  overlay acc (ms ++ [m]) = m ∪ overlay acc ms.
Proof. unfold overlay. by rewrite foldl_app. Qed.

Lemma overlay_lookup_None (acc : pydict) ms k :
  overlay acc ms !! k = None ↔
  acc !! k = None ∧ ∀ m, m ∈ ms → m !! k = None.
Proof.
  induction ms as [|m ms IH] using rev_ind.
  - simpl. split; [intros ?; split; [done|]|by intros []].
    intros m Hm. by apply elem_of_nil in Hm.
  - rewrite overlay_snoc, lookup_union_None, IH. split.
    + intros (Hm & Hacc & Hms). split; [done|].
      intros m' [Hm'|Hm']%elem_of_app; [by apply Hms|].
      apply list_elem_of_singleton in Hm' as ->. done.
    + intros (Hacc & Hms). split_and!; [|done|].
      * apply Hms, elem_of_app. right. by apply list_elem_of_singleton.
      * intros m' Hm'. apply Hms, elem_of_app. by left.
Qed.

(** The rightmost mapping that has the key decides. *)
Lemma overlay_lookup_rightmost (acc : pydict) ms k i mi x :
  ms !! i = Some mi → mi !! k = Some x →
  (∀ j mj, i < j → ms !! j = Some mj → mj !! k = None) →
  overlay acc ms !! k = Some x.
Proof.
  revert i. induction ms as [|m ms IH] using rev_ind; intros i Hi Hx Hlater.
  - done.
  - rewrite overlay_snoc.
    destruct (decide (i = length ms)) as [->|Hne].
    + rewrite lookup_app_r, Nat.sub_diag in Hi by done.
      injection Hi as ->. by apply lookup_union_Some_l.
    + assert (i < length ms).
      { apply lookup_lt_Some in Hi. rewrite length_app in Hi; simpl in Hi. lia. }
      rewrite lookup_app_l in Hi by done.
      rewrite lookup_union_r.
      * apply (IH i); [done..|]. intros j mj Hij Hj.
        apply (Hlater j mj Hij). by rewrite lookup_app_l by (by eapply lookup_lt_Some).
      * apply (Hlater (length ms) m); [done|].
        by rewrite lookup_app_r, Nat.sub_diag.
Qed.

(** What the resolver returns for a dict: its own fields over its parents'. *)
Lemma _get_prototype_dict fuel h a m :
  _get_prototype (S fuel) h (VDict a) ∅ = Ok m →
  ∃ ps ms,
    match deref h a !! "prototype" with
    | Some v => parent_list h v = Ok ps
    | None => ps = []
    end ∧
    resolved fuel h ps ms ∧
    m = delete "prototype" (deref h a) ∪ overlay ∅ ms.
Proof.
  rewrite _get_prototype_S. simpl.
  destruct (deref h a !! "prototype") as [v|] eqn:Hv; simpl.
  - destruct (parent_list h v) as [ps| | |]; simpl; try done.
    destruct (ofold (resolver_body fuel h) ∅ ps) as [F| | |] eqn:HF;
      simpl; try done.
    intros [= <-].
    apply resolver_loop_Ok in HF as (ms & Hms & ->); [|done].
    exists ps, ms. split_and!; [done..|].
    unfold dict_update. rewrite delete_union. f_equal.
    apply delete_prototype_id, overlay_lookup_None. split; [done|].
    intros mp Hmp. apply list_elem_of_lookup in Hmp as [i Hi].
    destruct (Forall2_lookup_r _ _ _ _ _ Hms Hi) as (p & _ & Hp).
    by apply _get_prototype_pops in Hp.
  - intros [= <-]. exists [], []. split_and!; [done|constructor|].
    unfold dict_update. by rewrite delete_union.
Qed.

(** ** Precedence among the parents and the specification itself *)

Lemma overlay_lookup_is_Some (acc : pydict) ms k :
  is_Some (overlay acc ms !! k) →
  is_Some (acc !! k) ∨ ∃ i mi, ms !! i = Some mi ∧ is_Some (mi !! k).
Proof.
  intros Hk. destruct (acc !! k) as [x|] eqn:Hacc; [left; eauto|right].
  induction ms as [|m ms IH] using rev_ind.
  - simpl in Hk. rewrite Hacc in Hk. by destruct Hk.
  - rewrite overlay_snoc in Hk.
    destruct (m !! k) as [y|] eqn:Hm.
    + exists (length ms), m. split; [|by rewrite Hm].
      by rewrite lookup_app_r, Nat.sub_diag.
    + rewrite lookup_union_r in Hk by done.
      destruct (IH Hk) as (i & mi & Hi & Hmi). exists i, mi. split; [|done].
      by apply lookup_app_l_Some.
Qed.

Lemma overlay_lookup_is_Some_2 (acc : pydict) ms k i mi :
  ms !! i = Some mi → is_Some (mi !! k) → is_Some (overlay acc ms !! k).
Proof.
  intros Hi Hk. destruct (overlay acc ms !! k) eqn:Ho; [eauto|].
  apply overlay_lookup_None in Ho as [_ Ho].
  rewrite (Ho mi) in Hk; [done|]. by eapply list_elem_of_lookup_2.
Qed.

(** A parent that resolves adds its keys to the child's mapping. *)
Lemma parent_of_keys h x p fx mx :
  parent_of h x p →
  _get_prototype fx h x ∅ = Ok mx →
  ∃ fp mp, _get_prototype fp h p ∅ = Ok mp ∧
           ∀ k, is_Some (mp !! k) → is_Some (mx !! k).
Proof.
  intros (a & v & ps & -> & Hv & Hps & Hp) Hx.
  destruct fx as [|fx]; [done|].
  apply _get_prototype_dict in Hx as (ps' & ms & Hps' & Hms & ->).
  rewrite Hv in Hps'. assert (ps' = ps) as -> by congruence.
  apply list_elem_of_lookup in Hp as [i Hi].
  destruct (Forall2_lookup_l _ _ _ _ _ Hms Hi) as (mp & Hmi & Hmp).
  exists fx, mp. split; [done|]. intros k Hk.
  destruct (delete "prototype" (deref h a) !! k) eqn:Hd.
  - rewrite (lookup_union_Some_l _ _ _ _ Hd). eauto.
  - rewrite lookup_union_r by done. by eapply overlay_lookup_is_Some_2.
Qed.

Lemma ancestor_keys h x p :
  ancestor h x p →
  ∀ fx mx fp mp,
    _get_prototype fx h x ∅ = Ok mx →
    _get_prototype fp h p ∅ = Ok mp →
    ∀ k, is_Some (mp !! k) → is_Some (mx !! k).
Proof.
  induction 1 as [x p Hxp|x y p Hxy _ IH]; intros fx mx fp mp Hx Hp k Hk.
  - destruct (parent_of_keys _ _ _ _ _ Hxp Hx) as (fp' & mp' & Hp' & Hsub).
    apply Hsub. by rewrite <-(_get_prototype_fuel_agree _ _ _ _ _ _ _ Hp Hp').
  - destruct (parent_of_keys _ _ _ _ _ Hxy Hx) as (fy & my & Hy & Hsub).
    apply Hsub. by eapply IH.
Qed.

(** C2.  A specification that names parents P1..Pn resolves every field it
    defines itself to its own value, wherever the parents define it; a
    field it does not define resolves to the value in the resolved mapping
    of the rightmost parent that has it. *)
Theorem parents_rightmost_self_overrides
    (h : heap) (a : addr) (v : pyval) (ps : list pyval) (fuel : nat) (m : pydict) :
  deref h a !! "prototype" = Some v →
  parent_list h v = Ok ps →
  _get_prototype fuel h (VDict a) ∅ = Ok m →
  ∀ k : string, k ≠ "prototype" →
    (∀ x, deref h a !! k = Some x → m !! k = Some x) ∧
    (∀ i p fi mi x,
       deref h a !! k = None →
       ps !! i = Some p →
       _get_prototype fi h p ∅ = Ok mi →
       mi !! k = Some x →
       (∀ j q fj mj, i < j → ps !! j = Some q →
                     _get_prototype fj h q ∅ = Ok mj → mj !! k = None) →
       m !! k = Some x).
Proof.
  intros Hv Hps Hm k Hk.
  destruct fuel as [|fuel]; [done|].
  apply _get_prototype_dict in Hm as (ps' & ms & Hps' & Hms & ->).
  rewrite Hv in Hps'. assert (ps' = ps) as -> by congruence.
  split.
  - intros x Hx. apply lookup_union_Some_l. by rewrite lookup_delete_ne.
  - intros i p fi mi x Hown Hi Hmi Hx Hlater.
    rewrite lookup_union_r by (by rewrite lookup_delete_ne).
    destruct (Forall2_lookup_l _ _ _ _ _ Hms Hi) as (mi' & Hi' & Hmi').
    assert (mi' = mi) as -> by (by eapply _get_prototype_fuel_agree).
    apply (overlay_lookup_rightmost _ _ _ i mi); [done..|].
    intros j mj Hij Hj.
    destruct (Forall2_lookup_r _ _ _ _ _ Hms Hj) as (q & Hq & Hmj).
    by eapply Hlater.
Qed.

Lemma parents_rightmost_self_overrides_witness :
  _get_prototype 4 test_heap (VDict 5) ∅ = Ok GOBLIN_ARCHWIZARD_resolved ∧
  GOBLIN_ARCHWIZARD_resolved !! "key" = Some (VStr "goblin archwizard") ∧
  GOBLIN_ARCHWIZARD_resolved !! "attacks" = Some (VSeq [VStr "archwizard staff"]).
Proof.
  assert (_get_prototype 4 test_heap (VDict 5) ∅ = Ok GOBLIN_ARCHWIZARD_resolved)
    as Hm by reflexivity.
  assert (deref test_heap 5 !! "prototype" = Some (VSeq [VDict 2; VDict 4]))
    as Hv by reflexivity.
  assert (parent_list test_heap (VSeq [VDict 2; VDict 4]) = Ok [VDict 2; VDict 4])
    as Hps by reflexivity.
  split; [exact Hm|]. split.
  - apply (proj1 (parents_rightmost_self_overrides test_heap 5 _ _ 4 _
                    Hv Hps Hm "key" ltac:(discriminate))).
    reflexivity.
  - apply (proj2 (parents_rightmost_self_overrides test_heap 5 _ _ 4 _
                    Hv Hps Hm "attacks" ltac:(discriminate))
             1 (VDict 4) 1 ARCHWIZARD); try reflexivity.
    intros j q fj mj Hj Hq. destruct j as [|[|j]]; [lia..|]. discriminate Hq.
Defined.

(** C3.  The mapping the resolver returns for a specification has no
    [prototype] key and one value per field name, and its keys are the
    specification's own keys other than [prototype] together with the keys
    of the resolved mappings of its ancestors. *)
Theorem resolved_mapping_invariant (h : heap) (a : addr) (fuel : nat) (m : pydict) :
  _get_prototype fuel h (VDict a) ∅ = Ok m →
  m !! "prototype" = None ∧
  (∀ k v1 v2, m !! k = Some v1 → m !! k = Some v2 → v1 = v2) ∧
  (∀ k : string,
     k ∈ dom m ↔
     (k ∈ dom (deref h a) ∧ k ≠ "prototype") ∨
     (∃ p fp mp, ancestor h (VDict a) p ∧
                 _get_prototype fp h p ∅ = Ok mp ∧ k ∈ dom mp)).
Proof.
  intros Hm. split_and!.
  - by eapply _get_prototype_pops.
  - congruence.
  - intros k. rewrite !elem_of_dom. split.
    + intros Hk. destruct fuel as [|fuel]; [done|].
      apply _get_prototype_dict in Hm as (ps & ms & Hps & Hms & ->).
      destruct (delete "prototype" (deref h a) !! k) as [x|] eqn:Hd.
      * left. apply lookup_delete_Some in Hd as [Hne Hd]. split; [eauto|done].
      * right. rewrite lookup_union_r in Hk by done.
        apply overlay_lookup_is_Some in Hk as [Hk|(i & mi & Hi & Hk)].
        { rewrite lookup_empty in Hk. by destruct Hk. }
        destruct (Forall2_lookup_r _ _ _ _ _ Hms Hi) as (p & Hp & Hmi).
        exists p, fuel, mi. split_and!; [|done|by apply elem_of_dom].
        apply tc_once. destruct (deref h a !! "prototype") as [v|] eqn:Hv.
        -- exists a, v, ps. split_and!; [done..|]. by eapply list_elem_of_lookup_2.
        -- subst ps. by rewrite lookup_nil in Hp.
    + intros [[Hk Hne]|(p & fp & mp & Hanc & Hp & Hk)].
      * destruct fuel as [|fuel]; [done|].
        apply _get_prototype_dict in Hm as (ps & ms & _ & _ & ->).
        destruct Hk as [x Hx]. exists x.
        apply lookup_union_Some_l. by rewrite lookup_delete_ne.
      * apply elem_of_dom in Hk. by eapply ancestor_keys.
Qed.

Lemma resolved_mapping_invariant_witness :
  _get_prototype 4 test_heap (VDict 5) ∅ = Ok GOBLIN_ARCHWIZARD_resolved ∧
  GOBLIN_ARCHWIZARD_resolved !! "prototype" = None ∧
  ("resists" ∈ dom GOBLIN_ARCHWIZARD_resolved ↔
   ("resists" ∈ dom (deref test_heap 5) ∧ "resists" ≠ "prototype") ∨
   (∃ p fp mp, ancestor test_heap (VDict 5) p ∧
               _get_prototype fp test_heap p ∅ = Ok mp ∧
               "resists" ∈ dom mp)).
Proof.
  assert (_get_prototype 4 test_heap (VDict 5) ∅ = Ok GOBLIN_ARCHWIZARD_resolved)
    as Hm by reflexivity.
  destruct (resolved_mapping_invariant test_heap 5 4 _ Hm) as (H1 & _ & H3).
  split; [exact Hm|]. split; [exact H1|exact (H3 "resists")].
Defined.

(** ** Termination on acyclic parent graphs *)

Lemma update_items_no_fuel h (xs : list pyval) (prot : pydict) :
  ofold (λ acc e, let* kv := update_item h e in Ok (<[kv.1 := kv.2]> acc)) prot xs
  ≠ OutOfFuel.
Proof.
  apply (ofold_ends (λ r, r ≠ OutOfFuel)); [done|].
  intros acc x _.
  destruct x as [| |s|ys|b| |]; simpl; try done.
  - destruct s as [|c1 [|c2 [|c3 s]]]; done.
  - destruct ys as [|x1 [|x2 [|x3 ys]]]; try done; destruct x1; done.
  - by case_bool_decide.
Qed.

Lemma resolver_finish_no_fuel h dic prot :
  resolver_finish h dic prot ≠ OutOfFuel.
Proof.
  unfold resolver_finish.
  destruct dic; simpl; try done.
  - pose proof (update_items_no_fuel h (chars s) prot) as Hne.
    by destruct (ofold _ prot (chars s)).
  - pose proof (update_items_no_fuel h xs prot) as Hne.
    by destruct (ofold _ prot xs).
Qed.

Lemma parent_list_no_fuel h v : parent_list h v ≠ OutOfFuel.
Proof. by destruct v. Qed.

(** A value that is no dict makes no recursive call. *)
Lemma _get_prototype_not_dict fuel h dic prot :
  isinstance_dict dic = false →
  _get_prototype (S fuel) h dic prot ≠ OutOfFuel.
Proof.
  intros Hdic. rewrite _get_prototype_S.
  destruct (py_contains h "prototype" dic) as [[]| | |] eqn:Hc; simpl; try done.
  - by destruct dic.
  - apply resolver_finish_no_fuel.
  - by destruct dic.
Qed.

Lemma NoDup_bounded_length (l : list nat) (n : nat) :
  NoDup l → (∀ x, x ∈ l → x < n) → length l ≤ n.
Proof.
  intros Hnd Hlt.
  assert (l ⊆+ seq 0 n) as Hsub.
  { apply NoDup_submseteq; [done|].
    intros x Hx. apply elem_of_seq. specialize (Hlt x Hx). lia. }
  apply submseteq_length in Hsub. by rewrite length_seq in Hsub.
Qed.

Lemma has_prototype_allocated h a v :
  deref h a !! "prototype" = Some v → a < length h.
Proof.
  unfold deref. intros Hv. apply lookup_lt_is_Some.
  destruct (h !! a) as [d|] eqn:Ha; [eauto|]. done.
Qed.

(** The dict objects on the stack are distinct when the graph is acyclic,
    and there are no more than [length h] of them. *)
Lemma _get_prototype_depth h :
  ∀ fuel (path : list addr) a prot,
    NoDup path →
    (∀ b, b ∈ path → b < length h) →
    (∀ b, b ∈ path → tc (parent_addr h) b a) →
    acyclic h a →
    length h < fuel + length path →
    _get_prototype fuel h (VDict a) prot ≠ OutOfFuel.
Proof.
  induction fuel as [|fuel IH]; intros path a prot Hnd Hlt Hpath Hacyc Hfuel.
  { pose proof (NoDup_bounded_length path (length h) Hnd Hlt). unfold addr in *. simpl in Hfuel. lia. }
  rewrite _get_prototype_S. simpl.
  destruct (deref h a !! "prototype") as [v|] eqn:Hv; simpl;
    [|apply resolver_finish_no_fuel].
  destruct (parent_list h v) as [ps| | |] eqn:Hps; simpl; try done;
    [|by apply parent_list_no_fuel in Hps].
  assert (a ∉ path) as Ha.
  { intros Hin. by apply (Hacyc a), Hpath. }
  assert (NoDup (a :: path)) as Hnd' by (by constructor).
  assert (∀ b, b ∈ a :: path → b < length h) as Hlt'.
  { intros b [->|Hb]%elem_of_cons; [by eapply has_prototype_allocated|auto]. }
  pose proof (NoDup_bounded_length _ _ Hnd' Hlt') as Hlen. simpl in Hlen.
  unfold addr in *.
  assert (ofold (resolver_body fuel h) prot ps ≠ OutOfFuel) as Hloop.
  { apply (ofold_ends (λ r, r ≠ OutOfFuel)); [done|].
    intros acc p Hp. rewrite resolver_body_eq.
    destruct (isinstance_dict p) eqn:Hdict.
    - destruct p as [| | | |b| |]; try done.
      assert (parent_addr h a b) as Hab by (by exists a, v, ps).
      apply (IH (a :: path)); [done..| | |simpl; lia].
      + intros c [->|Hc]%elem_of_cons; [by apply tc_once|].
        eapply tc_r; [by apply Hpath|done].
      + intros c Hbc. apply Hacyc. by eapply rtc_l.
    - destruct fuel as [|fuel']; [lia|]. by apply _get_prototype_not_dict. }
  destruct (ofold (resolver_body fuel h) prot ps); simpl; done.
Qed.

Lemma mapping_or_mappings_parents h v :
  mapping_or_mappings v = true →
  ∃ ps, parent_list h v = Ok ps ∧ ∀ p, p ∈ ps → ∃ b, p = VDict b.
Proof.
  destruct v as [| | |xs|b| |]; simpl; try done.
  - intros Hxs. exists xs. split; [done|]. intros p Hp.
    apply Is_true_true, forallb_True in Hxs.
    rewrite Forall_forall in Hxs. specialize (Hxs p Hp).
    destruct p; try done. eauto.
  - intros _. exists [VDict b]. split; [done|].
    intros p ->%list_elem_of_singleton. eauto.
Qed.

(** A well-formed specification raises nothing: with any fuel its
    resolution returns or runs out of fuel. *)
Lemma _get_prototype_well_formed h :
  ∀ fuel a prot,
    well_formed h a →
    (∃ m, _get_prototype fuel h (VDict a) prot = Ok m) ∨
    _get_prototype fuel h (VDict a) prot = OutOfFuel.
Proof.
  induction fuel as [|fuel IH]; intros a prot Hwf; [by right|].
  rewrite _get_prototype_S. simpl.
  destruct (deref h a !! "prototype") as [v|] eqn:Hv; simpl; [|left; eauto].
  destruct (mapping_or_mappings_parents h v) as (ps & Hps & Hdicts).
  { by apply (Hwf a). }
  rewrite Hps; simpl.
  assert ((∃ F, ofold (resolver_body fuel h) prot ps = Ok F) ∨
          ofold (resolver_body fuel h) prot ps = OutOfFuel) as [[F ->]| ->].
  { apply (ofold_ends (λ r, (∃ F, r = Ok F) ∨ r = OutOfFuel)); [by left; eauto|].
    intros acc p Hp. rewrite resolver_body_eq.
    destruct (Hdicts p Hp) as [b ->]. apply IH.
    intros c x Hbc. apply Hwf. eapply rtc_l; [|done]. by exists a, v, ps. }
  - left. simpl. eauto.
  - by right.
Qed.

(** X14.  On a specification whose parent references form no cycle the
    recursion of the resolver is bounded: a recursion depth of one more than the number of
    dict objects is enough, more fuel changes nothing, and a specification
    whose [prototype] fields are mappings or sequences of mappings gets a
    mapping back. *)
Theorem acyclic_resolution_terminates (h : heap) (a : addr) :
  acyclic h a →
  ∀ (fuel : nat) (prot : pydict), length h < fuel →
    _get_prototype fuel h (VDict a) prot ≠ OutOfFuel ∧
    _get_prototype fuel h (VDict a) prot =
      _get_prototype (S (length h)) h (VDict a) prot ∧
    (well_formed h a → ∃ m, _get_prototype fuel h (VDict a) prot = Ok m).
Proof.
  intros Hacyc fuel prot Hfuel.
  assert (∀ n, length h < n → _get_prototype n h (VDict a) prot ≠ OutOfFuel)
    as Hterm.
  { intros n Hn. apply (_get_prototype_depth h n []); try done.
    - constructor.
    - intros b Hb. by apply elem_of_nil in Hb.
    - intros b Hb. by apply elem_of_nil in Hb.
    - simpl. lia. }
  split_and!.
  - by apply Hterm.
  - apply _get_prototype_fuel_le; [lia|]. apply Hterm. lia.
  - intros Hwf.
    destruct (_get_prototype_well_formed h fuel a prot Hwf) as [?|Hout]; [done|].
    by apply Hterm in Hout.
Qed.

Lemma test_heap_parent_addr a b :
  parent_addr test_heap a b → b < a.
Proof.
  intros (a' & v & ps & [= <-] & Hv & Hps & Hb).
  destruct a as [|[|[|[|[|[|a]]]]]]; vm_compute in Hv; try discriminate Hv;
    injection Hv as <-; vm_compute in Hps; injection Hps as <-.
  - apply list_elem_of_singleton in Hb as [= <-]. lia.
  - apply list_elem_of_singleton in Hb as [= <-]. lia.
  - apply elem_of_cons in Hb as [[= <-]|Hb]; [lia|].
    apply list_elem_of_singleton in Hb as [= <-]. lia.
Defined.

Lemma test_heap_tc a b : tc (parent_addr test_heap) a b → b < a.
Proof.
  induction 1 as [a b Hab|a b c Hab _ IH].
  - by apply test_heap_parent_addr.
  - apply test_heap_parent_addr in Hab. lia.
Defined.

Lemma test_heap_acyclic a : acyclic test_heap a.
Proof. intros b _ Hbb. apply test_heap_tc in Hbb. lia. Defined.

Lemma acyclic_resolution_terminates_witness :
  acyclic test_heap 5 ∧
  _get_prototype 7 test_heap (VDict 5) ∅ ≠ OutOfFuel.
Proof.
  split; [apply test_heap_acyclic|].
  apply (acyclic_resolution_terminates test_heap 5 (test_heap_acyclic 5) 7 ∅).
  simpl. lia.
Defined.

(** ** The depth of the recursion *)

Lemma ofold_out_of_fuel {A B} (body : A → B → outcome A) xs x :
  x ∈ xs →
  (∀ acc, body acc x = OutOfFuel) →
  (∀ acc y, y ∈ xs → (∃ a, body acc y = Ok a) ∨ body acc y = OutOfFuel) →
  ∀ acc, ofold body acc xs = OutOfFuel.
Proof.
  intros Hx Hout. induction xs as [|y xs IH]; intros Hbody acc;
    [by apply elem_of_nil in Hx|].
  simpl. apply elem_of_cons in Hx as [<-|Hx].
  - by rewrite Hout.
  - destruct (Hbody acc y ltac:(left)) as [[a ->]| ->]; [|done]. simpl.
    apply IH; [done|]. intros; apply Hbody; by right.
Qed.

Lemma well_formed_parent h a b :
  well_formed h a → parent_addr h a b → well_formed h b.
Proof. intros Hwf Hab c v Hbc. apply Hwf. by eapply rtc_l. Qed.

(** A chain of as many parent references as the interpreter allows calls
    is one call too deep. *)
Lemma deep_chain_out_of_fuel h :
  ∀ limit a prot,
    well_formed h a → parent_chain h a limit →
    _get_prototype limit h (VDict a) prot = OutOfFuel.
Proof.
  induction limit as [|limit IH]; intros a prot Hwf Hchain; [done|].
  inversion Hchain as [|a' b n Hab Hb]; subst.
  pose proof Hab as (a' & v & ps & [= <-] & Hv & Hps & Hin).
  rewrite _get_prototype_S. simpl. rewrite Hv. simpl. rewrite Hps. simpl.
  destruct (mapping_or_mappings_parents h v) as (ps' & Hps' & Hdicts).
  { by apply (Hwf a). }
  assert (ps' = ps) as -> by congruence.
  rewrite (ofold_out_of_fuel _ ps (VDict b)); [done|done| |].
  - intros acc. rewrite resolver_body_eq.
    apply IH; [by eapply well_formed_parent|done].
  - intros acc y Hy. rewrite resolver_body_eq.
    destruct (Hdicts y Hy) as [c ->].
    apply _get_prototype_well_formed.
    eapply well_formed_parent; [done|]. by exists a, v, ps.
Qed.

(** Without such a chain the calls the interpreter allows are enough. *)
Lemma shallow_chain_in_fuel h :
  ∀ limit a prot,
    well_formed h a → ¬ parent_chain h a limit →
    _get_prototype limit h (VDict a) prot ≠ OutOfFuel.
Proof.
  induction limit as [|limit IH]; intros a prot Hwf Hno.
  { destruct Hno. constructor. }
  rewrite _get_prototype_S. simpl.
  destruct (deref h a !! "prototype") as [v|] eqn:Hv; simpl;
    [|apply resolver_finish_no_fuel].
  destruct (mapping_or_mappings_parents h v) as (ps & Hps & Hdicts).
  { by apply (Hwf a). }
  rewrite Hps. simpl.
  assert (ofold (resolver_body limit h) prot ps ≠ OutOfFuel) as Hloop.
  { apply (ofold_ends (λ r, r ≠ OutOfFuel)); [done|].
    intros acc p Hp. rewrite resolver_body_eq.
    destruct (Hdicts p Hp) as [b ->].
    assert (parent_addr h a b) as Hab by (by exists a, v, ps).
    apply IH; [by eapply well_formed_parent|].
    intros Hb. apply Hno. by econstructor. }
  destruct (ofold (resolver_body limit h) prot ps); simpl; done.
Qed.

(** *** A line of dicts *)

Lemma chain_deref n i : i < n → deref (chain n) i = link i.
Proof.
  intros Hi. unfold deref, chain, heap, addr.
  by rewrite list_lookup_fmap, lookup_seq_lt.
Qed.

Lemma chain_prototype n a v :
  deref (chain n) a !! "prototype" = Some v → ∃ b, a = S b ∧ v = VDict b.
Proof.
  destruct (decide (a < n)) as [Ha|Ha].
  - rewrite chain_deref by done. destruct a as [|b]; simpl.
    + by rewrite lookup_singleton_ne.
    + rewrite lookup_singleton_eq. intros [= <-]. eauto.
  - unfold deref, chain, heap, addr.
    rewrite list_lookup_fmap, lookup_seq_ge by lia.
    simpl. by rewrite lookup_empty.
Qed.

Lemma chain_parent_addr n a b : parent_addr (chain n) a b → a = S b.
Proof.
  intros (a' & v & ps & [= <-] & Hv & Hps & Hin).
  apply chain_prototype in Hv as (c & -> & ->).
  injection Hps as <-. by apply list_elem_of_singleton in Hin as [= ->].
Qed.

Lemma chain_parent n b : S b < n → parent_addr (chain n) (S b) b.
Proof.
  intros Hb. exists (S b), (VDict b), [VDict b]. split_and!; [done| |done|].
  - rewrite chain_deref by done. apply lookup_singleton_eq.
  - by apply list_elem_of_singleton.
Qed.

Lemma chain_tc n a b : tc (parent_addr (chain n)) a b → b < a.
Proof.
  induction 1 as [a b Hab|a b c Hab _ IH].
  - apply chain_parent_addr in Hab. lia.
  - apply chain_parent_addr in Hab. lia.
Qed.

Lemma chain_acyclic n a : acyclic (chain n) a.
Proof. intros b _ Hbb. apply chain_tc in Hbb. lia. Qed.

Lemma chain_well_formed n a : well_formed (chain n) a.
Proof. intros b v _ Hv. by apply chain_prototype in Hv as (c & _ & ->). Qed.

Lemma chain_parent_chain n :
  ∀ k i, k ≤ i → i < n → parent_chain (chain n) i k.
Proof.
  induction k as [|k IH]; intros i Hk Hi; [constructor|].
  destruct i as [|i]; [lia|].
  apply (parent_chain_S _ _ i); [by apply chain_parent|].
  apply IH; lia.
Qed.

(** *** The prototypes of the module's own test *)

Lemma test_heap_parents a b :
  parent_addr test_heap a b →
  a = 2 ∧ b = 1 ∨ a = 3 ∧ b = 1 ∨ a = 5 ∧ (b = 2 ∨ b = 4).
Proof.
  intros (a' & v & ps & [= <-] & Hv & Hps & Hb).
  destruct a as [|[|[|[|[|[|a]]]]]]; vm_compute in Hv; try discriminate Hv;
    injection Hv as <-; vm_compute in Hps; injection Hps as <-.
  - apply list_elem_of_singleton in Hb as [= <-]. auto.
  - apply list_elem_of_singleton in Hb as [= <-]. auto.
  - apply elem_of_cons in Hb as [[= <-]|Hb]; [auto|].
    apply list_elem_of_singleton in Hb as [= <-]. auto.
Defined.

Lemma test_heap_well_formed a : well_formed test_heap a.
Proof.
  intros b v _ Hv.
  destruct b as [|[|[|[|[|[|b]]]]]]; vm_compute in Hv; try discriminate Hv;
    by injection Hv as <-.
Defined.

Lemma test_heap_no_chain_of_3 : ¬ parent_chain test_heap 5 3.
Proof.
  intros H.
  inversion H as [|? b1 ? H1 C1]; subst.
  inversion C1 as [|? b2 ? H2 C2]; subst.
  inversion C2 as [|? b3 ? H3 _]; subst.
  apply test_heap_parents in H1, H2, H3. lia.
Defined.

Lemma test_heap_chain_of_2 : parent_chain test_heap 5 2.
Proof.
  apply (parent_chain_S _ _ 2).
  { exists 5, (VSeq [VDict 2; VDict 4]), [VDict 2; VDict 4].
    split_and!; [reflexivity..|]. by left. }
  apply (parent_chain_S _ _ 1); [|constructor].
  exists 2, (VDict 1), [VDict 1]. split_and!; [reflexivity..|]. by left.
Defined.

(** C9, as the code has it.  The recursion of the resolver is as deep as
    the longest chain of parent references, and the interpreter bounds it.
    A specification whose [prototype] fields are mappings or sequences of
    mappings gets a mapping back when no chain of [limit] parent references
    starts at it, [limit] being the number of nested calls the interpreter
    allows; when such a chain starts at it the resolver returns nothing and
    the recursion error leaves it.  An acyclic specification in a heap of
    fewer than [limit] dict objects has no such chain. *)
Theorem resolution_within_recursion_limit
    (h : heap) (a : addr) (limit : nat) (prot : pydict) :
  well_formed h a →
  (¬ parent_chain h a limit →
   ∃ m, _get_prototype limit h (VDict a) prot = Ok m) ∧
  (parent_chain h a limit →
   _get_prototype limit h (VDict a) prot = OutOfFuel) ∧
  (acyclic h a → length h < limit → ¬ parent_chain h a limit).
Proof.
  intros Hwf. split_and!.
  - intros Hno.
    destruct (_get_prototype_well_formed h limit a prot Hwf) as [?|Hout]; [done|].
    by apply shallow_chain_in_fuel in Hout.
  - by apply deep_chain_out_of_fuel.
  - intros Hacyc Hlen Hchain.
    apply (deep_chain_out_of_fuel h limit a prot Hwf) in Hchain.
    revert Hchain. apply (_get_prototype_depth h limit []); try done.
    + constructor.
    + intros b Hb. by apply elem_of_nil in Hb.
    + intros b Hb. by apply elem_of_nil in Hb.
    + simpl. lia.
Qed.

Lemma resolution_within_recursion_limit_witness :
  well_formed test_heap 5 ∧
  (¬ parent_chain test_heap 5 3) ∧
  (∃ m, _get_prototype 3 test_heap (VDict 5) ∅ = Ok m) ∧
  parent_chain test_heap 5 2 ∧
  _get_prototype 2 test_heap (VDict 5) ∅ = OutOfFuel ∧
  (¬ parent_chain test_heap 5 7).
Proof.
  split_and!.
  - apply test_heap_well_formed.
  - apply test_heap_no_chain_of_3.
  - apply (resolution_within_recursion_limit test_heap 5 3 ∅
             (test_heap_well_formed 5)), test_heap_no_chain_of_3.
  - apply test_heap_chain_of_2.
  - apply (resolution_within_recursion_limit test_heap 5 2 ∅
             (test_heap_well_formed 5)), test_heap_chain_of_2.
  - apply (resolution_within_recursion_limit test_heap 5 7 ∅
             (test_heap_well_formed 5)); [apply test_heap_acyclic|simpl; lia].
Defined.

(** C9 as stated fails.  A line of 1500 dicts, each naming the one before
    it as its parent, is acyclic and every [prototype] field in it is a
    mapping; the interpreter allows fewer than 1000 nested calls, and the
    resolver returns no mapping: the recursion error leaves it. *)
Lemma deep_acyclic_chain_hits_recursion_limit :
  acyclic (chain 1500) 1499 ∧
  well_formed (chain 1500) 1499 ∧
  (∀ limit, limit ≤ recursion_limit →
     _get_prototype limit (chain 1500) (VDict 1499) ∅ = OutOfFuel ∧
     ¬ ∃ m, _get_prototype limit (chain 1500) (VDict 1499) ∅ = Ok m).
Proof.
  split_and!; [apply chain_acyclic|apply chain_well_formed|].
  intros limit Hlimit. unfold recursion_limit in Hlimit.
  assert (_get_prototype limit (chain 1500) (VDict 1499) ∅ = OutOfFuel) as Hout.
  { apply deep_chain_out_of_fuel; [apply chain_well_formed|].
    apply chain_parent_chain; lia. }
  split; [done|]. intros [m Hm]. congruence.
Qed.

(** ** A [prototype] field that names no parents *)

Lemma char_has_no_prototype c :
  is_substring "prototype" (String c EmptyString) = false.
Proof. cbn -[Ascii.ascii_dec]. by destruct (Ascii.ascii_dec "p" c). Qed.

(** One character handed to the resolver: [dict.update] rejects it. *)
Lemma _get_prototype_char fuel h c prot :
  _get_prototype (S fuel) h (VStr (String c EmptyString)) prot = Raise ValueError.
Proof.
  rewrite _get_prototype_S.
  unfold py_contains. rewrite char_has_no_prototype. reflexivity.
Qed.

Lemma _get_prototype_has_parents fuel h a v prot :
  deref h a !! "prototype" = Some v →
  _get_prototype (S fuel) h (VDict a) prot =
  let* prototypes := parent_list h v in
  let* prot := ofold (resolver_body fuel h) prot prototypes in
  resolver_finish h (VDict a) prot.
Proof.
  intros Hv. rewrite _get_prototype_S. simpl. rewrite Hv. simpl.
  by destruct (parent_list h v).
Qed.

(** C8, as the code has it.  A [prototype] field holding an integer, [None],
    a function or a store object makes the resolver raise a type error; one
    holding a non-empty string makes it raise a value error, from
    [dict.update] on the first character.  Both leave the resolver. *)
Theorem malformed_prototype_raises
    (h : heap) (a : addr) (v : pyval) (fuel : nat) (prot : pydict) :
  deref h a !! "prototype" = Some v →
  (v = VNone ∨ (∃ z, v = VInt z) ∨ (∃ f, v = VFun f) ∨ (∃ o, v = VObj o) →
   _get_prototype (S fuel) h (VDict a) prot = Raise TypeError) ∧
  (∀ s, v = VStr s → s ≠ "" →
   _get_prototype (S (S fuel)) h (VDict a) prot = Raise ValueError).
Proof.
  intros Hv. split.
  - intros Hshape. rewrite (_get_prototype_has_parents _ _ _ _ _ Hv).
    destruct Hshape as [->|[[z ->]|[[f ->]|[o ->]]]]; reflexivity.
  - intros s -> Hs. rewrite (_get_prototype_has_parents _ _ _ _ _ Hv).
    destruct s as [|c s]; [done|]. simpl.
    rewrite resolver_body_eq, _get_prototype_char. reflexivity.
Qed.

Lemma malformed_prototype_raises_witness :
  _get_prototype 1 [{[ "prototype" := VInt 5 ]}] (VDict 0) ∅ = Raise TypeError ∧
  _get_prototype 2 [{[ "prototype" := VStr "GOBLIN" ]}] (VDict 0) ∅ = Raise ValueError.
Proof.
  split.
  - apply (malformed_prototype_raises [{[ "prototype" := VInt 5 ]}] 0 (VInt 5) 0 ∅).
    + reflexivity.
    + right. left. eexists. reflexivity.
  - apply (malformed_prototype_raises [{[ "prototype" := VStr "GOBLIN" ]}] 0
             (VStr "GOBLIN") 0 ∅) with (s := "GOBLIN").
    + reflexivity.
    + reflexivity.
    + discriminate.
Defined.

(** C8 as stated fails: the empty string is neither a mapping nor a sequence
    of mappings, yet the loop over it visits nothing and the resolver
    returns the specification's other fields. *)
Lemma empty_string_prototype_resolves :
  mapping_or_mappings (VStr "") = false ∧
  deref [{[ "prototype" := VStr ""; "key" := VStr "goblin" ]}] 0 !! "prototype"
    = Some (VStr "") ∧
  _get_prototype 1 [{[ "prototype" := VStr ""; "key" := VStr "goblin" ]}]
                 (VDict 0) ∅
    = Ok {[ "key" := VStr "goblin" ]} ∧
  ¬ ∃ e, _get_prototype 1 [{[ "prototype" := VStr ""; "key" := VStr "goblin" ]}]
                        (VDict 0) ∅ = Raise e.
Proof.
  split_and!; [reflexivity..|].
  intros [e He]. discriminate He.
Qed.

(** ** The two comprehensions of [spawn] *)

Lemma mbind_Ok {A B} (m : M A) (k : A → M B) t b t' :
  mbind m k t = (Ok b, t') ↔ ∃ a t1, m t = (Ok a, t1) ∧ k a t1 = (Ok b, t').
Proof.
  unfold mbind. destruct (m t) as [[a| | |] t1]; split;
    try (intros [= ? ?]; done); try (intros (? & ? & [= ? ?] & ?); done).
  - eauto.
  - by intros (? & ? & [= <- <-] & ?).
Qed.

(** The functions called by the second comprehension, and what it stores. *)
Lemma attribute_loop w (natt : pydict) :
  ∀ (l : list (string * pyval)) (acc : pydict) t r t',
    NoDup l.*1 →
    mfold (attribute_step w natt) acc l t = (r, t') →
    ∃ evs, t' = t ++ evs ∧
      (∀ e, e ∈ evs →
         ∃ k f, e = ECall k f ∧ (k, VFun f) ∈ l ∧ is_attribute natt k = true) ∧
      ∀ acc', r = Ok acc' →
        (∀ k v, (k, v) ∈ l → is_attribute natt k = true → callable v = false →
                acc' !! k = Some v) ∧
        (∀ k f, (k, VFun f) ∈ l → is_attribute natt k = true →
           ∃ pre post x,
             evs = pre ++ ECall k f :: post ∧
             (∀ g, ECall k g ∉ pre ++ post) ∧
             call w f (t ++ pre) = inr x ∧
             acc' !! k = Some x) ∧
        (∀ k, (∀ v, (k, v) ∈ l → is_attribute natt k = false) →
              acc' !! k = acc !! k).
Proof.
  induction l as [|[k0 v0] l IH]; intros acc t r t' Hnd Hrun.
  { injection Hrun as <- <-. exists []. rewrite app_nil_r. split_and!; [done| |].
    - intros e He. by apply elem_of_nil in He.
    - intros acc' [= <-]. split_and!; [|  |done].
      + intros k v Hk. by apply elem_of_nil in Hk.
      + intros k f Hk. by apply elem_of_nil in Hk. }
  apply NoDup_cons in Hnd as [Hk0 Hnd]. simpl in Hk0.
  assert (∀ v, (k0, v) ∉ l) as Hfresh.
  { intros v Hv. apply Hk0, list_elem_of_fmap. by exists (k0, v). }
  simpl in Hrun. unfold mbind at 1 in Hrun. unfold attribute_step at 1 in Hrun.
  simpl in Hrun.
  destruct (is_attribute natt k0) eqn:Hattr.
  - destruct (callable v0) eqn:Hcall.
    + destruct v0 as [| | | | |f0|]; try done. simpl in Hrun.
      unfold mbind at 1 in Hrun. simpl in Hrun.
      destruct (call w f0 t) as [e|x] eqn:Hx; simpl in Hrun.
      { injection Hrun as <- <-. exists [ECall k0 f0]. split_and!; [done| |done].
        intros e' ->%list_elem_of_singleton. exists k0, f0.
        split_and!; [done|by left|done]. }
      apply IH in Hrun as (evs & -> & Hcalls & HOk); [|done].
      exists (ECall k0 f0 :: evs). split_and!.
      * by rewrite <-(assoc_L (++)).
      * intros e [->|He]%elem_of_cons.
        -- exists k0, f0. split_and!; [done|by left|done].
        -- destruct (Hcalls e He) as (k & f & -> & Hin & Hk).
           exists k, f. split_and!; [done|by right|done].
      * intros acc' ->. destruct (HOk acc' eq_refl) as (HB & HC & HD).
        split_and!.
        -- intros k v [[= -> ->]|Hin]%elem_of_cons; [done|]. by apply HB.
        -- intros k f [[= -> ->]|Hin]%elem_of_cons Hk.
           ++ exists [], evs, x. split_and!; [done| | |].
              ** intros g Hg. simpl in Hg.
                 destruct (Hcalls _ Hg) as (k & f' & [= <- <-] & Hin & _).
                 by apply (Hfresh (VFun g)).
              ** by rewrite app_nil_r.
              ** rewrite HD, lookup_insert_eq; [done|].
                 intros v Hv. by apply Hfresh in Hv.
           ++ destruct (HC k f Hin Hk) as (pre & post & y & -> & Hnone & Hy & Hacc).
              exists (ECall k0 f0 :: pre), post, y. split_and!; [done| | |done].
              ** intros g [[= -> _]|Hg]%elem_of_cons; [by apply (Hfresh (VFun f))|].
                 by apply (Hnone g).
              ** by rewrite <-(assoc_L (++)) in Hy.
        -- intros k Hk.
           assert (k ≠ k0) as Hne.
           { intros ->. specialize (Hk (VFun f0) ltac:(left)). congruence. }
           rewrite HD, lookup_insert_ne; [done..|].
           intros v Hv. apply (Hk v). by right.
    + unfold mbind at 1, mret at 1 in Hrun. simpl in Hrun.
      apply IH in Hrun as (evs & -> & Hcalls & HOk); [|done].
      exists evs. split_and!; [done| |].
      * intros e He. destruct (Hcalls e He) as (k & f & -> & Hin & Hk).
        exists k, f. split_and!; [done|by right|done].
      * intros acc' ->. destruct (HOk acc' eq_refl) as (HB & HC & HD).
        split_and!.
        -- intros k v [[= -> ->]|Hin]%elem_of_cons Hk Hv.
           ++ rewrite HD, lookup_insert_eq; [done|].
              intros v' Hv'. by apply Hfresh in Hv'.
           ++ by apply HB.
        -- intros k f [[= -> <-]|Hin]%elem_of_cons Hk; [done|]. by apply HC.
        -- intros k Hk.
           assert (k ≠ k0) as Hne.
           { intros ->. specialize (Hk v0 ltac:(left)). congruence. }
           rewrite HD, lookup_insert_ne; [done..|].
           intros v Hv. apply (Hk v). by right.
  - unfold mret at 1 in Hrun.
    apply IH in Hrun as (evs & -> & Hcalls & HOk); [|done].
    exists evs. split_and!; [done| |].
    + intros e He. destruct (Hcalls e He) as (k & f & -> & Hin & Hk).
      exists k, f. split_and!; [done|by right|done].
    + intros acc' ->. destruct (HOk acc' eq_refl) as (HB & HC & HD).
      split_and!.
      * intros k v [[= -> ->]|Hin]%elem_of_cons Hk Hv; [congruence|]. by apply HB.
      * intros k f [[= -> <-]|Hin]%elem_of_cons Hk; [congruence|]. by apply HC.
      * intros k Hk. apply HD. intros v Hv. apply (Hk v). by right.
Qed.

Lemma ndb_prefix key :
  String.prefix "ndb_" key = true ↔ ∃ name, key = "ndb_" +:+ name.
Proof.
  split.
  - destruct key as [|c1 [|c2 [|c3 [|c4 name]]]]; cbn -[Ascii.ascii_dec];
      try done;
      repeat (match goal with
              | |- context [Ascii.ascii_dec ?a ?b] =>
                  destruct (Ascii.ascii_dec a b) as [<-|]; try done
              end).
    intros _. by exists name.
  - intros [name ->]. cbn -[Ascii.ascii_dec].
    repeat (match goal with
            | |- context [Ascii.ascii_dec ?a ?b] =>
                destruct (Ascii.ascii_dec a b); try done
            end).
    by destruct name.
Qed.

Lemma split_ndb name : split_1_snd ("ndb_" +:+ name) = Ok name.
Proof. reflexivity. Qed.

(** The first comprehension never raises; it stores every [ndb_] field
    under its stripped name, with the value as it is. *)
Lemma nattribute_loop (l : list (string * pyval)) :
  NoDup l.*1 →
  ∃ n : pydict, ofold nattribute_step ∅ l = Ok n ∧
      ∀ name v, n !! name = Some v ↔ ("ndb_" +:+ name, v) ∈ l.
Proof.
  induction l as [|[k v] l IH] using rev_ind; intros Hnd.
  { exists ∅. split; [done|]. intros name v. rewrite lookup_empty.
    split; [done|]. intros H. by apply elem_of_nil in H. }
  rewrite fmap_app in Hnd. apply NoDup_app in Hnd as (Hnd & Hk & _).
  destruct (IH Hnd) as (n & Hn & Hlook).
  assert (∀ v', (k, v') ∈ l → False) as Hfresh.
  { intros v' Hv'. apply (Hk k); [|by left].
    apply list_elem_of_fmap. by exists (k, v'). }
  rewrite ofold_app, Hn. simpl. unfold nattribute_step at 1. simpl.
  destruct (String.prefix "ndb_" k) eqn:Hpre.
  - apply ndb_prefix in Hpre as [name0 ->]. rewrite split_ndb. simpl.
    exists (<[name0 := if callable v then v else v]> n). split; [done|].
    intros name v'. rewrite elem_of_app, list_elem_of_singleton.
    destruct (decide (name = name0)) as [->|Hne].
    + rewrite lookup_insert_eq. split.
      * intros [= <-]. right. by destruct (callable v).
      * intros [Hin|[= ->]]; [by apply Hfresh in Hin|by destruct (callable v)].
    + rewrite lookup_insert_ne by done. rewrite Hlook. split; [by left|].
      intros [Hin|[= ? ?]]; [done|]. by destruct Hne.
  - exists n. split; [done|]. intros name v'.
    rewrite elem_of_app, list_elem_of_singleton, Hlook. split; [by left|].
    intros [Hin|[= <- <-]]; [done|].
    assert (String.prefix "ndb_" ("ndb_" +:+ name) = true) as Hp
      by (apply ndb_prefix; eauto).
    congruence.
Qed.

Lemma lookup_after_pops (prot : pydict) k :
  k ∉ ["key"; "location"; "home"; "destination"; "typeclass";
       "permissions"; "locks"; "aliases"] →
  after_pops prot !! k = prot !! k.
Proof.
  rewrite !not_elem_of_cons. intros (?&?&?&?&?&?&?&?&_).
  unfold after_pops. by rewrite !lookup_delete_ne.
Qed.

Lemma lookup_after_pops_Some (prot : pydict) k v :
  after_pops prot !! k = Some v →
  prot !! k = Some v ∧
  k ∉ ["key"; "location"; "home"; "destination"; "typeclass";
       "permissions"; "locks"; "aliases"].
Proof.
  unfold after_pops. rewrite !lookup_delete_Some.
  intros (?&?&?&?&?&?&?&?&?). split; [done|].
  rewrite !not_elem_of_cons. split_and!; try done. apply not_elem_of_nil.
Qed.

(** What a round of [spawn] that packs a tuple has done. *)
Lemma spawn_params_Some w h fuel spec t p t' :
  spawn_params w h fuel spec t = (Ok (Some p), t') →
  ∃ prot loc home dest natt attrs,
    _get_prototype fuel h spec ∅ = Ok prot ∧ prot ≠ ∅ ∧
    nattributes_of (after_pops prot) = Ok natt ∧
    attributes_of w (after_pops prot) natt
      (t ++ [ERandint;
             EHandleDbref (default VNone (prot !! "location"));
             EHandleDbref (default (DEFAULT_HOME w) (prot !! "home"));
             EHandleDbref (default VNone (prot !! "destination"))])
      = (Ok attrs, t') ∧
    p = ObjParam
          (CreateKwargs
             (default (VStr ("Spawned Object " +:+ fmt_06i (randint w t)))
                      (prot !! "key"))
             loc home dest
             (default (BASE_OBJECT_TYPECLASS w) (prot !! "typeclass")))
          (default (VStr "") (prot !! "permissions"))
          (default (VStr "") (prot !! "locks"))
          (default (VStr "") (prot !! "aliases"))
          natt attrs.
Proof.
  unfold spawn_params. intros Hrun.
  apply mbind_Ok in Hrun as (prot & t0 & Hprot & Hrun).
  injection Hprot as Hprot <-.
  case_bool_decide as Hne; [done|].
  apply mbind_Ok in Hrun as (n & t1 & [= <- <-] & Hrun).
  unfold dict_pop in Hrun. simpl in Hrun.
  apply mbind_Ok in Hrun as (loc & t2 & Hloc & Hrun).
  apply mbind_Ok in Hrun as (home & t3 & Hhome & Hrun).
  apply mbind_Ok in Hrun as (dest & t4 & Hdest & Hrun).
  apply mbind_Ok in Hrun as (natt & t5 & Hnatt & Hrun).
  apply mbind_Ok in Hrun as (attrs & t6 & Hattrs & [= <- <-]).
  injection Hloc as _ <-. injection Hhome as _ <-. injection Hdest as _ <-.
  injection Hnatt as Hnatt <-.
  exists prot, loc, home, dest, natt, attrs.
  rewrite <-!(assoc_L (++)) in Hattrs. simpl in Hattrs.
  rewrite !lookup_delete_ne in Hattrs by done.
  split_and!; [done..|].
  by rewrite !lookup_delete_ne by done.
Qed.

(** *** Which events a round of [spawn] makes *)

Lemma emits_ret {A} P (a : A) : emits P (mret a).
Proof. intros t r t' [= <- <-]. exists []. by rewrite app_nil_r. Qed.

Lemma emits_lift {A} P (o : outcome A) : emits P (lift o).
Proof. intros t r t' [= <- <-]. exists []. by rewrite app_nil_r. Qed.

Lemma emits_bind {A B} P (m : M A) (k : A → M B) :
  emits P m → (∀ a, emits P (k a)) → emits P (mbind m k).
Proof.
  intros Hm Hk t r t'. unfold mbind.
  destruct (m t) as [r1 t1] eqn:Hrun.
  destruct (Hm _ _ _ Hrun) as (evs1 & -> & HP1).
  destruct r1 as [a| | |].
  - intros Hrun2. destruct (Hk a _ _ _ Hrun2) as (evs2 & -> & HP2).
    exists (evs1 ++ evs2). split; [by rewrite (assoc_L (++))|].
    by apply Forall_app.
  - intros [= <- <-]. eauto.
  - intros [= <- <-]. eauto.
  - intros [= <- <-]. eauto.
Qed.

Lemma emits_one {A} (P : event → Prop) (f : trace → outcome A) e :
  P e → emits P (λ t, (f t, t ++ [e])).
Proof. intros HP t r t' [= <- <-]. exists [e]. split; [done|]. by constructor. Qed.

Lemma emits_mfold {A B} P (body : A → B → M A) xs :
  (∀ acc x, emits P (body acc x)) → ∀ acc, emits P (mfold body acc xs).
Proof.
  intros Hbody. induction xs as [|x xs IH]; intros acc; simpl.
  - apply emits_ret.
  - apply emits_bind; [apply Hbody|apply IH].
Qed.

Lemma emits_mwhen P b (m : M unit) : emits P m → emits P (mwhen b m).
Proof. destruct b; [done|]. intros _. apply emits_ret. Qed.

Lemma emits_weaken {A} (P Q : event → Prop) (m : M A) :
  (∀ e, P e → Q e) → emits P m → emits Q m.
Proof.
  intros HPQ Hm t r t' Hrun. destruct (Hm _ _ _ Hrun) as (evs & -> & HP).
  exists evs. split; [done|]. by eapply Forall_impl.
Qed.

(** A function called by the second comprehension is the value of a field
    that is left after the [pop]s. *)
Lemma attributes_of_emits w (prot natt : pydict) :
  emits (λ e, ∃ k f, e = ECall k f ∧ prot !! k = Some (VFun f) ∧
                     is_attribute natt k = true)
        (attributes_of w prot natt).
Proof.
  intros t r t' Hrun. unfold attributes_of in Hrun.
  apply attribute_loop in Hrun as (evs & -> & Hcalls & _);
    [|apply NoDup_fst_map_to_list].
  exists evs. split; [done|]. apply Forall_forall. intros e He.
  destruct (Hcalls e He) as (k & f & -> & Hin & Hk).
  exists k, f. split_and!; [done| |done]. by apply elem_of_map_to_list.
Qed.

Lemma spawn_params_emits w h fuel spec :
  emits (λ e, ∀ k f, e = ECall k f → k ∉ reserved_fields)
        (spawn_params w h fuel spec).
Proof.
  unfold spawn_params.
  apply emits_bind; [apply emits_lift|]. intros prot.
  case_bool_decide; [apply emits_ret|].
  apply emits_bind; [by apply emits_one|]. intros n.
  unfold dict_pop; simpl.
  apply emits_bind; [by apply emits_one|]. intros loc.
  apply emits_bind; [by apply emits_one|]. intros home.
  apply emits_bind; [by apply emits_one|]. intros dest.
  apply emits_bind; [apply emits_lift|]. intros natt.
  apply emits_bind; [|intros; apply emits_ret].
  eapply emits_weaken; [|apply attributes_of_emits].
  intros e (k & f & -> & Hk & _) k' f' [= <- <-].
  by apply (lookup_after_pops_Some prot) in Hk as [_ Hk].
Qed.

(** ** Lazy values *)

(** What the two comprehensions of a round that packs a tuple have done. *)
Lemma spawn_params_comprehensions w h fuel spec t p t' prot :
  spawn_params w h fuel spec t = (Ok (Some p), t') →
  _get_prototype fuel h spec ∅ = Ok prot →
  ∃ evs,
    t' = t ++ [ERandint;
               EHandleDbref (default VNone (prot !! "location"));
               EHandleDbref (default (DEFAULT_HOME w) (prot !! "home"));
               EHandleDbref (default VNone (prot !! "destination"))] ++ evs ∧
    (∀ name v, op_nattributes p !! name = Some v ↔
               prot !! ("ndb_" +:+ name) = Some v) ∧
    (∀ e, e ∈ evs →
       ∃ k f, e = ECall k f ∧ is_attribute (op_nattributes p) k = true) ∧
    (∀ k f, prot !! k = Some (VFun f) → k ∉ reserved_fields →
       is_attribute (op_nattributes p) k = true →
       ∃ pre post x,
         evs = pre ++ ECall k f :: post ∧
         (∀ g, ECall k g ∉ pre ++ post) ∧
         call w f (t ++ [ERandint;
                         EHandleDbref (default VNone (prot !! "location"));
                         EHandleDbref (default (DEFAULT_HOME w) (prot !! "home"));
                         EHandleDbref (default VNone (prot !! "destination"))]
                     ++ pre) = inr x ∧
         op_attributes p !! k = Some x) ∧
    (∀ k, is_attribute (op_nattributes p) k = false →
          op_attributes p !! k = None).
Proof.
  intros Hrun Hprot.
  apply spawn_params_Some in Hrun
    as (prot' & loc & home & dest & natt & attrs & Hprot' & _ & Hnatt & Hattrs & ->).
  assert (prot' = prot) as -> by congruence. simpl.
  unfold attributes_of in Hattrs.
  apply attribute_loop in Hattrs as (evs & -> & Hcalls & HOk);
    [|apply NoDup_fst_map_to_list].
  destruct (HOk attrs eq_refl) as (_ & HC & HD).
  unfold nattributes_of in Hnatt.
  destruct (nattribute_loop (map_to_list (after_pops prot)))
    as (n & Hn & Hlook); [apply NoDup_fst_map_to_list|].
  assert (n = natt) as -> by congruence.
  exists evs. split_and!.
  - by rewrite <-(assoc_L (++) t).
  - intros name v. rewrite Hlook, elem_of_map_to_list, lookup_after_pops; [done|].
    rewrite !not_elem_of_cons. split_and!; try done. apply not_elem_of_nil.
  - intros e He. destruct (Hcalls e He) as (k & f & -> & _ & Hk). eauto.
  - intros k f Hk Hres Hgen.
    destruct (HC k f) as (pre & post & x & -> & Hnone & Hx & Hattr); [|done|].
    { apply elem_of_map_to_list. by rewrite lookup_after_pops. }
    exists pre, post, x. split_and!; try done.
    by rewrite <-(assoc_L (++) t) in Hx.
  - intros k Hk. rewrite HD; [apply lookup_empty|done].
Qed.



(** C4 fails on the code.  The second comprehension tests [key in
    nattributes], and [nattributes] has the stripped names.  A function held
    by a generic field [k] is never called and nothing is stored for [k]
    when the prototype also has the field [ndb_k]: the only thing stored
    under [k] is the transient value of [ndb_k].  And a function held by a
    transient field [ndb_name] is called: it is stored as it is among the
    transient attributes, and what the call returned is stored as the
    generic attribute [ndb_name]. *)
Theorem shadowed_lazy_attribute_not_called
    (w : world) (h : heap) (fuel : nat) (spec : pyval) (t t' : trace)
    (p : objparam) (prot : pydict) :
  spawn_params w h fuel spec t = (Ok (Some p), t') →
  _get_prototype fuel h spec ∅ = Ok prot →
  ∃ evs, t' = t ++ evs ∧
    (∀ k f v, prot !! k = Some (VFun f) → prot !! ("ndb_" +:+ k) = Some v →
       (∀ g, ECall k g ∉ evs) ∧
       op_attributes p !! k = None ∧
       op_nattributes p !! k = Some v) ∧
    (∀ name f, prot !! ("ndb_" +:+ name) = Some (VFun f) →
       prot !! ("ndb_ndb_" +:+ name) = None →
       ∃ pre post x,
         evs = pre ++ ECall ("ndb_" +:+ name) f :: post ∧
         call w f (t ++ pre) = inr x ∧
         op_nattributes p !! name = Some (VFun f) ∧
         op_attributes p !! ("ndb_" +:+ name) = Some x).
Proof.
  intros Hrun Hprot.
  destruct (spawn_params_comprehensions _ _ _ _ _ _ _ _ Hrun Hprot)
    as (evs & -> & Hndb & Hcalls & Hcall & Hskip).
  eexists. split; [reflexivity|]. split.
  - intros k f v Hk Hv. apply Hndb in Hv.
    assert (is_attribute (op_nattributes p) k = false) as Hgen.
    { unfold is_attribute. apply negb_false_iff, orb_true_iff. right.
      apply bool_decide_eq_true. eauto. }
    split_and!; [|by apply Hskip|done].
    intros g. rewrite elem_of_app, !elem_of_cons.
    intros [[?|[?|[?|[?|Hg]]]]|Hg]; try done.
    + by apply elem_of_nil in Hg.
    + destruct (Hcalls _ Hg) as (k' & f' & [= <- <-] & Hk'). congruence.
  - intros name f Hf Hfree.
    destruct (Hcall ("ndb_" +:+ name) f Hf) as (pre & post & x & -> & _ & Hx & Hattr).
    { unfold reserved_fields. rewrite !not_elem_of_cons.
      split_and!; try done. apply not_elem_of_nil. }
    { unfold is_attribute. apply negb_true_iff, orb_false_iff. split.
      - apply bool_decide_eq_false. unfold _CREATE_OBJECT_KWARGS.
        rewrite !not_elem_of_cons. split_and!; try done. apply not_elem_of_nil.
      - apply bool_decide_eq_false. intros [v Hv]. apply Hndb in Hv.
        change ("ndb_" +:+ ("ndb_" +:+ name)) with ("ndb_ndb_" +:+ name) in Hv.
        congruence. }
    exists ([ERandint;
             EHandleDbref (default VNone (prot !! "location"));
             EHandleDbref (default (DEFAULT_HOME w) (prot !! "home"));
             EHandleDbref (default VNone (prot !! "destination"))] ++ pre),
           post, x.
    split_and!.
    + by rewrite <-(assoc_L (++) _ pre).
    + by rewrite (assoc_L (++) t) in Hx |- *.
    + by apply Hndb.
    + done.
Qed.

Lemma shadowed_lazy_attribute_not_called_witness :
  spawn_params quiet_world [SHADOWED] 1 (VDict 0) []
    = (Ok (Some SHADOWED_objparam), SHADOWED_trace) ∧
  (∀ g, ECall "mood" g ∉ SHADOWED_trace) ∧
  op_attributes SHADOWED_objparam !! "mood" = None ∧
  op_nattributes SHADOWED_objparam !! "mood" = Some (VInt 1) ∧
  (∃ pre post x,
     SHADOWED_trace = pre ++ ECall "ndb_glow" 5 :: post ∧
     call quiet_world 5 ([] ++ pre) = inr x ∧
     op_nattributes SHADOWED_objparam !! "glow" = Some (VFun 5) ∧
     op_attributes SHADOWED_objparam !! "ndb_glow" = Some x).
Proof.
  assert (spawn_params quiet_world [SHADOWED] 1 (VDict 0) []
          = (Ok (Some SHADOWED_objparam), SHADOWED_trace)) as Hrun
    by reflexivity.
  assert (_get_prototype 1 [SHADOWED] (VDict 0) ∅ = Ok SHADOWED) as Hprot
    by reflexivity.
  destruct (shadowed_lazy_attribute_not_called quiet_world [SHADOWED] 1
              (VDict 0) [] _ _ _ Hrun Hprot) as (evs & Hevs & Hmood & Hglow).
  simpl in Hevs. subst evs.
  destruct (Hmood "mood" 1 (VInt 1) eq_refl eq_refl) as (Hnone & Hattr & Hnatt).
  split_and!; [exact Hrun|exact Hnone|exact Hattr|exact Hnatt|].
  apply (Hglow "glow" 5); reflexivity.
Defined.

(** ** Fields that are not attributes *)

(** C10.  No round of [spawn], whatever its outcome, calls a function on
    account of one of the popped fields; a function held by [key],
    [typeclass], [permissions], [locks] or [aliases] is packed as it is. *)
Theorem reserved_callables_not_called
    (w : world) (h : heap) (fuel : nat) (spec : pyval) (t t' : trace)
    (r : outcome (option objparam)) :
  spawn_params w h fuel spec t = (r, t') →
  ∃ evs, t' = t ++ evs ∧
    (∀ k g, k ∈ ["key"; "typeclass"; "permissions"; "locks"; "aliases"] →
            ECall k g ∉ evs) ∧
    (∀ p prot f,
       r = Ok (Some p) → _get_prototype fuel h spec ∅ = Ok prot →
       (prot !! "key" = Some (VFun f) → db_key (op_create p) = VFun f) ∧
       (prot !! "typeclass" = Some (VFun f) →
        db_typeclass_path (op_create p) = VFun f) ∧
       (prot !! "permissions" = Some (VFun f) → op_permissions p = VFun f) ∧
       (prot !! "locks" = Some (VFun f) → op_locks p = VFun f) ∧
       (prot !! "aliases" = Some (VFun f) → op_aliases p = VFun f)).
Proof.
  intros Hrun.
  destruct (spawn_params_emits w h fuel spec _ _ _ Hrun) as (evs & -> & Hevs).
  exists evs. split_and!; [done| |].
  - intros k g Hk Hin. rewrite Forall_forall in Hevs.
    apply (Hevs _ Hin k g eq_refl). unfold reserved_fields.
    rewrite !elem_of_cons in Hk. rewrite !elem_of_cons.
    destruct Hk as [->|[->|[->|[->|[->|Hk]]]]]; auto 10.
  - intros p prot f -> Hprot.
    apply spawn_params_Some in Hrun
      as (prot' & loc & home & dest & natt & attrs & Hprot' & _ & _ & _ & ->).
    assert (prot' = prot) as -> by congruence. simpl.
    split_and!; by intros ->.
Qed.

Lemma reserved_callables_not_called_witness :
  ∃ evs,
    spawn_params quiet_world [LAZY_KEY] 1 (VDict 0) []
      = (Ok (Some LAZY_KEY_objparam), [] ++ evs) ∧
    (ECall "key" 3 ∉ evs) ∧ (ECall "locks" 4 ∉ evs) ∧
    db_key (op_create LAZY_KEY_objparam) = VFun 3 ∧
    op_locks LAZY_KEY_objparam = VFun 4.
Proof.
  assert (spawn_params quiet_world [LAZY_KEY] 1 (VDict 0) []
          = (Ok (Some LAZY_KEY_objparam),
             [ERandint; EHandleDbref VNone; EHandleDbref (VStr "#2");
              EHandleDbref VNone])) as Hrun by reflexivity.
  assert (_get_prototype 1 [LAZY_KEY] (VDict 0) ∅ = Ok LAZY_KEY) as Hprot
    by reflexivity.
  destruct (reserved_callables_not_called quiet_world [LAZY_KEY] 1 (VDict 0)
              [] _ _ Hrun) as (evs & Hevs & Hnone & Hpass).
  exists evs. split_and!.
  - rewrite <-Hevs. exact Hrun.
  - apply Hnone. by left.
  - apply Hnone. do 3 right. by left.
  - by apply (Hpass LAZY_KEY_objparam LAZY_KEY 3 eq_refl Hprot).
  - by apply (Hpass LAZY_KEY_objparam LAZY_KEY 4 eq_refl Hprot).
Defined.

(** ** Transient fields among the attributes *)

(** C1 fails on the code.  The second comprehension tests [key in
    nattributes], and [nattributes] has the stripped names: an [ndb_] field
    is stored as a transient attribute and, under its full name, as a
    generic attribute too; a field whose name is the stripped name of an
    [ndb_] field is stored nowhere. *)
Theorem ndb_field_also_generic_attribute :
  (∃ t', spawn_params quiet_world [GHOST] 1 (VDict 0) []
           = (Ok (Some GHOST_objparam), t')) ∧
  (∃ t', spawn_params quiet_world [MOODY_GHOST] 1 (VDict 0) []
           = (Ok (Some GHOST_objparam), t')) ∧
  op_nattributes GHOST_objparam !! "mood" = Some (VStr "shy") ∧
  op_attributes GHOST_objparam !! "ndb_mood" = Some (VStr "shy") ∧
  op_attributes GHOST_objparam !! "mood" = None.
Proof.
  split_and!; [eexists; reflexivity..|reflexivity|reflexivity|reflexivity].
Qed.

(** ** The batch *)

Lemma store_call_Ok w e t u t' :
  store_call w e t = (Ok u, t') → t' = t ++ [e].
Proof. unfold store_call. by intros [= _ <-]. Qed.

Lemma create_all_Ok w :
  ∀ objparams iobj t dbobjs t',
    create_all w iobj objparams t = (Ok dbobjs, t') →
    dbobjs = imap (λ j p, DbObj (iobj + j) (op_create p)) objparams ∧
    t' = t ++ imap (λ j p, EObjectDB (iobj + j) (op_create p)) objparams.
Proof.
  induction objparams as [|p rest IH]; intros iobj t dbobjs t'; simpl.
  { intros [= <- <-]. by rewrite app_nil_r. }
  intros (u & t1 & ->%store_call_Ok & Hrun)%mbind_Ok.
  apply mbind_Ok in Hrun as (ds & t2 & Hrest & [= <- <-]).
  apply IH in Hrest as [-> ->].
  rewrite Nat.add_0_r, <-(assoc_L (++)). simpl.
  split; [f_equal|do 2 f_equal];
    apply imap_ext; intros j q _; simpl; f_equal; lia.
Qed.

Lemma nattributes_add_Ok w iobj :
  ∀ (l : list (string * pyval)) u t u' t',
    mfold (λ _ kv, store_call w (ENattributesAdd iobj kv.1 kv.2)) u l t
      = (Ok u', t') →
    t' = t ++ ((λ kv, ENattributesAdd iobj kv.1 kv.2) <$> l).
Proof.
  induction l as [|kv l IH]; intros u t u' t'; simpl.
  { intros [= _ <-]. by rewrite app_nil_r. }
  intros (u1 & t1 & ->%store_call_Ok & Hrun)%mbind_Ok.
  apply IH in Hrun as ->. by rewrite <-(assoc_L (++)).
Qed.

Lemma mwhen_store_call_Ok w b e t u t' :
  mwhen b (store_call w e) t = (Ok u, t') →
  t' = t ++ (if b then [e] else []).
Proof.
  destruct b; simpl.
  - apply store_call_Ok.
  - intros [= _ <-]. by rewrite app_nil_r.
Qed.

Lemma setup_object_Ok w h objparams objs iobj dbobj objparam t objs' t' :
  objparams !! iobj = Some objparam →
  setup_object w h objparams objs (iobj, dbobj) t = (Ok objs', t') →
  objs' = objs ++ [dbobj] ∧ t' = t ++ setup_events h iobj objparam.
Proof.
  intros Hp. unfold setup_object. cbn [fst snd]. rewrite Hp.
  intros (u1 & t1 & ->%store_call_Ok & Hrun)%mbind_Ok.
  apply mbind_Ok in Hrun as (u2 & t2 & ->%store_call_Ok & Hrun).
  apply mbind_Ok in Hrun as (u3 & t3 & ->%store_call_Ok & Hrun).
  apply mbind_Ok in Hrun as (u4 & t4 & ->%mwhen_store_call_Ok & Hrun).
  apply mbind_Ok in Hrun as (u5 & t5 & ->%mwhen_store_call_Ok & Hrun).
  apply mbind_Ok in Hrun as (u6 & t6 & ->%mwhen_store_call_Ok & Hrun).
  apply mbind_Ok in Hrun as (u7 & t7 & Hnatt & Hrun).
  apply mbind_Ok in Hrun as (u8 & t8 & Hattr & Hrun).
  apply mbind_Ok in Hrun as (u9 & t9 & ->%store_call_Ok & [= <- <-]).
  split; [done|].
  apply mwhen_store_call_Ok in Hattr as ->.
  assert (t7 = (((((t ++ [ETypeclass iobj]) ++ [EBasetypeSetup iobj]) ++
                  [EAtObjectCreation iobj]) ++
                 (if truthy h (op_permissions objparam)
                  then [EPermissionsAdd iobj (op_permissions objparam)]
                  else [])) ++
                (if truthy h (op_locks objparam)
                 then [ELocksAdd iobj (op_locks objparam)] else [])) ++
               (if truthy h (op_aliases objparam)
                then [EAliasesAdd iobj (op_aliases objparam)] else []) ++
               ((λ kv, ENattributesAdd iobj kv.1 kv.2)
                  <$> map_to_list (op_nattributes objparam))) as ->.
  { case_bool_decide as Hempty; simpl in Hnatt.
    - injection Hnatt as _ <-. rewrite Hempty, map_to_list_empty. simpl.
      by rewrite !app_nil_r.
    - apply nattributes_add_Ok in Hnatt as ->. by rewrite <-!(assoc_L (++)). }
  unfold setup_events. rewrite <-!(assoc_L (++)). simpl.
  by destruct (bool_decide (op_attributes objparam = ∅)).
Qed.

(** The loop of [_batch_create_object] from position [length done] on. *)
Lemma setup_loop_Ok w h :
  ∀ (todo done : list objparam) (dbobjs objs : list dbobj) t objs' t',
    length dbobjs = length todo →
    mfold (setup_object w h (done ++ todo)) objs
          (imap (λ j d, (length done + j, d)) dbobjs) t = (Ok objs', t') →
    objs' = objs ++ dbobjs ∧
    t' = t ++ concat (imap (λ j p, setup_events h (length done + j) p) todo).
Proof.
  induction todo as [|p todo IH]; intros done dbobjs objs t objs' t' Hlen.
  { destruct dbobjs; [|done]. simpl. intros [= <- <-]. by rewrite !app_nil_r. }
  destruct dbobjs as [|d dbobjs]; [done|]. injection Hlen as Hlen.
  rewrite !imap_cons. cbn [mfold concat].
  intros (objs1 & t1 & Hone & Hrest)%mbind_Ok.
  rewrite Nat.add_0_r in Hone.
  apply (setup_object_Ok _ _ _ _ _ _ p) in Hone as [-> ->];
    [|by rewrite lookup_app_r, Nat.sub_diag].
  assert (done ++ p :: todo = (done ++ [p]) ++ todo) as Hsplit
    by (by rewrite <-(assoc_L (++))).
  rewrite Hsplit in Hrest.
  erewrite (imap_ext _ (λ j d, (length (done ++ [p]) + j, d))) in Hrest.
  2:{ intros j x _. unfold compose. rewrite length_app. cbn [length].
      f_equal. lia. }
  apply IH in Hrest as [-> ->]; [|done].
  rewrite Nat.add_0_r, <-!(assoc_L (++)).
  split; [done|]. do 3 f_equal.
  apply imap_ext. intros j x _. unfold compose. rewrite length_app.
  cbn [length]. f_equal. lia.
Qed.

Lemma _batch_create_object_Ok w h objparams t objs t' :
  _batch_create_object w h objparams t = (Ok objs, t') →
  objs = imap (λ i p, DbObj i (op_create p)) objparams ∧
  t' = t ++ imap (λ i p, EObjectDB i (op_create p)) objparams
         ++ concat (imap (setup_events h) objparams).
Proof.
  unfold _batch_create_object.
  intros (dbobjs & t1 & [-> ->]%create_all_Ok & Hloop)%mbind_Ok.
  apply (setup_loop_Ok w h objparams []) in Hloop as [-> ->];
    [|by rewrite length_imap].
  split; [done|]. by rewrite <-(assoc_L (++)).
Qed.

(** C6.  In a batch in which nothing raises, all objects are constructed
    first; then, object after object, the typeclass is fetched, the two
    creation hooks run, the attachments follow in the order permissions,
    locks, aliases, transient attributes, generic attributes (the first
    three only for a value that is true in Python, the last two only for a
    non-empty dict), and [basetype_posthook_setup] runs last. *)
Theorem hooks_and_attachments_in_order
    (w : world) (h : heap) (objparams : list objparam) (t t' : trace)
    (objs : list dbobj) :
  _batch_create_object w h objparams t = (Ok objs, t') →
  t' = t
       ++ imap (λ i p, EObjectDB i (op_create p)) objparams
       ++ concat (imap (λ i p,
            [ETypeclass i; EBasetypeSetup i; EAtObjectCreation i]
            ++ (if truthy h (op_permissions p)
                then [EPermissionsAdd i (op_permissions p)] else [])
            ++ (if truthy h (op_locks p)
                then [ELocksAdd i (op_locks p)] else [])
            ++ (if truthy h (op_aliases p)
                then [EAliasesAdd i (op_aliases p)] else [])
            ++ ((λ kv, ENattributesAdd i kv.1 kv.2)
                  <$> map_to_list (op_nattributes p))
            ++ (if bool_decide (op_attributes p = ∅) then []
                else [EBatchAdd i (map_to_list (op_attributes p)).*1
                                  (map_to_list (op_attributes p)).*2])
            ++ [EPosthookSetup i]) objparams).
Proof.
  intros Hrun. by apply _batch_create_object_Ok in Hrun as [_ ->].
Qed.

(** ** The order of the objects *)

Lemma spawn_params_None w h fuel spec t r t' :
  spawn_params w h fuel spec t = (Ok r, t') →
  (r = None ↔ _get_prototype fuel h spec ∅ = Ok ∅).
Proof.
  destruct r as [p|].
  - intros Hrun. split; [done|]. intros Hempty.
    apply spawn_params_Some in Hrun as (prot & _ & _ & _ & _ & _ & Hprot & Hne & _).
    congruence.
  - unfold spawn_params.
    intros (prot & t0 & [= Hprot <-] & Hrun)%mbind_Ok.
    case_bool_decide as Hempty; [by subst|].
    apply mbind_Ok in Hrun as (n & t1 & _ & Hrun).
    unfold dict_pop in Hrun. simpl in Hrun.
    apply mbind_Ok in Hrun as (loc & t2 & _ & Hrun).
    apply mbind_Ok in Hrun as (home & t3 & _ & Hrun).
    apply mbind_Ok in Hrun as (dest & t4 & _ & Hrun).
    apply mbind_Ok in Hrun as (natt & t5 & _ & Hrun).
    by apply mbind_Ok in Hrun as (attrs & t6 & _ & [= ? ?]).
Qed.

(** The loop of [spawn]: one tuple for every prototype that does not
    resolve to the empty mapping, in the order of the prototypes. *)
Lemma spawn_loop_Ok w h fuel :
  ∀ prototypes objsparams t objsparams' t',
    mfold (spawn_step w h fuel) objsparams prototypes t = (Ok objsparams', t') →
    ∃ rs : list (option objparam),
      Forall2 (λ prototype r,
                 (∃ ti ti', spawn_params w h fuel prototype ti = (Ok r, ti')) ∧
                 (r = None ↔ _get_prototype fuel h prototype ∅ = Ok ∅))
              prototypes rs ∧
      objsparams' = objsparams ++ omap id rs.
Proof.
  induction prototypes as [|prototype prototypes IH];
    intros objsparams t objsparams' t'; simpl.
  { intros [= <- <-]. exists []. split; [constructor|by rewrite app_nil_r]. }
  intros (acc & t1 & Hstep & Hrest)%mbind_Ok.
  unfold spawn_step in Hstep.
  apply mbind_Ok in Hstep as (r & t2 & Hr & [= <- <-]).
  apply IH in Hrest as (rs & Hrs & ->).
  exists (r :: rs). split.
  - constructor; [|done]. split; [eauto|]. by eapply spawn_params_None.
  - destruct r as [p|]; simpl; [|done]. by rewrite <-(assoc_L (++)).
Qed.

(** C5.  [spawn] makes one object for every prototype that does not resolve
    to the empty mapping and none for the others; the objects come back in
    the order of their prototypes, at consecutive positions. *)
Theorem spawn_preserves_order
    (w : world) (h : heap) (fuel : nat) (prototypes : list pyval)
    (t t' : trace) (objs : list dbobj) :
  spawn w h fuel prototypes t = (Ok objs, t') →
  ∃ rs : list (option objparam),
    Forall2 (λ prototype r,
               (∃ ti ti', spawn_params w h fuel prototype ti = (Ok r, ti')) ∧
               (r = None ↔ _get_prototype fuel h prototype ∅ = Ok ∅))
            prototypes rs ∧
    objs = imap (λ i p, DbObj i (op_create p)) (omap id rs).
Proof.
  unfold spawn.
  intros (objsparams & t1 & Hloop & Hbatch)%mbind_Ok.
  apply spawn_loop_Ok in Hloop as (rs & Hrs & ->).
  apply _batch_create_object_Ok in Hbatch as [-> _].
  by exists rs.
Qed.

(** ** A call into the store that raises *)

Lemma halts_ret {A} w (a : A) : halts_at_raise w (mret a).
Proof.
  intros t r t' [= <- <-]. exists []. split; [by rewrite app_nil_r|].
  intros pre ev post x Hsplit. by destruct pre.
Qed.

Lemma halts_lift {A} w (o : outcome A) : halts_at_raise w (lift o).
Proof.
  intros t r t' [= <- <-]. exists []. split; [by rewrite app_nil_r|].
  intros pre ev post x Hsplit. by destruct pre.
Qed.

Lemma halts_store_call w e : halts_at_raise w (store_call w e).
Proof.
  intros t r t' [= <- <-]. exists [e]. split; [done|].
  intros pre ev post x Hsplit Hraise.
  destruct pre as [|e' pre]; [|by destruct pre].
  injection Hsplit as <- <-. rewrite app_nil_r in Hraise. by rewrite Hraise.
Qed.

Lemma halts_bind {A B} w (m : M A) (k : A → M B) :
  halts_at_raise w m → (∀ a, halts_at_raise w (k a)) →
  halts_at_raise w (mbind m k).
Proof.
  intros Hm Hk t r t'. unfold mbind.
  destruct (m t) as [r1 t1] eqn:Hrun.
  destruct (Hm _ _ _ Hrun) as (evs1 & -> & H1).
  assert (∀ a, r1 = Ok a → k a (t ++ evs1) = (r, t') →
    ∃ evs, t' = t ++ evs ∧
      ∀ pre ev post x, evs = pre ++ ev :: post →
        store_raises w ev (t ++ pre) = Some x → post = [] ∧ r = Raise x) as HOk.
  { intros a -> Hrun2. destruct (Hk a _ _ _ Hrun2) as (evs2 & -> & H2).
    exists (evs1 ++ evs2). split; [by rewrite (assoc_L (++))|].
    intros pre ev post x Hsplit Hraise.
    apply app_eq_inv in Hsplit as [(l & -> & Hl)|(l & -> & Hl)].
    - destruct l as [|e l]; simpl in Hl.
      + subst evs2. apply (H2 [] ev post x); [done|]. by rewrite !app_nil_r.
      + injection Hl as -> ->.
        by destruct (H1 pre e l x eq_refl Hraise) as [_ ?].
    - apply (H2 l ev post x); [done|]. by rewrite <-(assoc_L (++)). }
  destruct r1 as [a|e| |]; [by apply HOk|..];
    intros [= <- <-]; exists evs1; (split; [done|]);
    intros pre ev post x Hs Hr;
    destruct (H1 pre ev post x Hs Hr) as [-> Heq]; (split; [done|]);
    congruence.
Qed.

Lemma halts_mfold {A B} w (body : A → B → M A) xs :
  (∀ acc x, halts_at_raise w (body acc x)) →
  ∀ acc, halts_at_raise w (mfold body acc xs).
Proof.
  intros Hbody. induction xs as [|x xs IH]; intros acc; simpl.
  - apply halts_ret.
  - apply halts_bind; [apply Hbody|apply IH].
Qed.

Lemma halts_mwhen w b (m : M unit) :
  halts_at_raise w m → halts_at_raise w (mwhen b m).
Proof. destruct b; [done|]. intros _. apply halts_ret. Qed.

Lemma create_all_halts w objparams :
  ∀ iobj, halts_at_raise w (create_all w iobj objparams).
Proof.
  induction objparams as [|p rest IH]; intros iobj; simpl.
  - apply halts_ret.
  - apply halts_bind; [apply halts_store_call|]. intros _.
    apply halts_bind; [apply IH|]. intros dbobjs. apply halts_ret.
Qed.

Lemma setup_object_halts w h objparams objs entry :
  halts_at_raise w (setup_object w h objparams objs entry).
Proof.
  unfold setup_object. destruct (objparams !! entry.1); [|apply halts_lift].
  repeat (apply halts_bind; [|intros ?]);
    try apply halts_mwhen; try apply halts_store_call; try apply halts_ret.
  apply halts_mfold. intros _ kv. apply halts_store_call.
Qed.

Lemma _batch_create_object_halts w h objparams :
  halts_at_raise w (_batch_create_object w h objparams).
Proof.
  unfold _batch_create_object.
  apply halts_bind; [apply create_all_halts|]. intros dbobjs.
  apply halts_mfold. intros objs entry. apply setup_object_halts.
Qed.

(** *** The objects are set up one after the other *)

Lemma create_all_emits w objparams :
  ∀ iobj, emits (λ e, event_object e = None) (create_all w iobj objparams).
Proof.
  induction objparams as [|p rest IH]; intros iobj; simpl.
  - apply emits_ret.
  - apply emits_bind; [by apply emits_one|]. intros _.
    apply emits_bind; [apply IH|]. intros dbobjs. apply emits_ret.
Qed.

Lemma setup_object_emits w h objparams objs iobj dbobj :
  emits (λ e, event_object e = Some iobj)
        (setup_object w h objparams objs (iobj, dbobj)).
Proof.
  unfold setup_object. cbn [fst snd].
  destruct (objparams !! iobj); [|apply emits_lift].
  repeat (apply emits_bind; [|intros ?]);
    try apply emits_mwhen; try (by apply emits_one); try apply emits_ret.
  apply emits_mfold. intros _ kv. by apply emits_one.
Qed.

Lemma sorted_by_object_app evs1 evs2 i0 :
  Forall (λ e, event_object e = Some i0) evs1 →
  Forall (λ e, ∃ i, event_object e = Some i ∧ i0 < i) evs2 →
  sorted_by_object evs2 →
  sorted_by_object (evs1 ++ evs2).
Proof.
  intros H1 H2 Hsorted n m e1 e2 i j Hnm.
  rewrite !lookup_app_Some. rewrite Forall_lookup in H1, H2.
  intros [Hn|[Hn1 Hn]] [Hm|[Hm1 Hm]] Hi Hj.
  - apply H1 in Hn, Hm. assert (i = i0 ∧ j = i0) as [-> ->]; [|done].
    split; congruence.
  - apply H1 in Hn. apply H2 in Hm as (j' & Hj' & Hlt).
    assert (i = i0 ∧ j = j') as [-> ->]; [split; congruence|lia].
  - apply lookup_lt_Some in Hm. lia.
  - apply (Hsorted (n - length evs1) (m - length evs1) e1 e2); [lia|done..].
Qed.

(** The calls of the loop from position [i0] on are on objects from [i0]
    on, in the order of the positions. *)
Lemma setup_loop_sorted w h objparams :
  ∀ (dbobjs : list dbobj) i0 objs t r t',
    mfold (setup_object w h objparams) objs
          (imap (λ j d, (i0 + j, d)) dbobjs) t = (r, t') →
    ∃ evs, t' = t ++ evs ∧
      Forall (λ e, ∃ i, event_object e = Some i ∧ i0 ≤ i) evs ∧
      sorted_by_object evs.
Proof.
  induction dbobjs as [|d dbobjs IH]; intros i0 objs t r t'.
  { intros [= <- <-]. exists []. split_and!; [by rewrite app_nil_r|done|].
    intros n m e1 e2 i j _ Hn. by rewrite lookup_nil in Hn. }
  rewrite imap_cons. cbn [mfold]. rewrite Nat.add_0_r. unfold mbind at 1.
  destruct (setup_object w h objparams objs (i0, d) t) as [r1 t1] eqn:Hone.
  destruct (setup_object_emits w h objparams objs i0 d _ _ _ Hone)
    as (evs1 & -> & H1).
  assert (Forall (λ e, ∃ i, event_object e = Some i ∧ i0 ≤ i) evs1) as H1'.
  { eapply Forall_impl; [done|]. intros e He. by exists i0. }
  assert (sorted_by_object evs1) as Hs1.
  { rewrite <-(app_nil_r evs1). by apply (sorted_by_object_app _ _ i0). }
  destruct r1 as [objs1| | |];
    [|intros [= <- <-]; exists evs1; split_and!; done..].
  erewrite (imap_ext _ (λ j d, (S i0 + j, d)));
    [|intros j x _; unfold compose; f_equal; lia].
  intros Hrest. apply IH in Hrest as (evs2 & -> & H2 & Hs2).
  exists (evs1 ++ evs2). split_and!.
  - by rewrite (assoc_L (++)).
  - apply Forall_app. split; [done|].
    eapply Forall_impl; [done|]. intros e (i & Hi & Hle). exists i. split; [done|lia].
  - apply (sorted_by_object_app _ _ i0); [done| |done].
    eapply Forall_impl; [done|]. intros e (i & Hi & Hle). exists i. split; [done|lia].
Qed.

Lemma _batch_create_object_sorted w h objparams t r t' :
  _batch_create_object w h objparams t = (r, t') →
  ∃ evs, t' = t ++ evs ∧ sorted_by_object evs.
Proof.
  unfold _batch_create_object, mbind.
  destruct (create_all w 0 objparams t) as [r1 t1] eqn:Hcreate.
  destruct (create_all_emits w objparams 0 _ _ _ Hcreate) as (evs1 & -> & H1).
  assert (sorted_by_object evs1) as Hs1.
  { intros n m e1 e2 i j _ Hn _ Hi. rewrite Forall_lookup in H1.
    apply H1 in Hn. congruence. }
  destruct r1 as [dbobjs| | |];
    [|intros [= <- <-]; exists evs1; split; done..].
  intros Hloop. apply (setup_loop_sorted w h objparams dbobjs 0) in Hloop
    as (evs2 & -> & _ & Hs2).
  exists (evs1 ++ evs2). split; [by rewrite (assoc_L (++))|].
  intros n m e1 e2 i j Hnm. rewrite !lookup_app_Some.
  rewrite Forall_lookup in H1.
  intros [Hn|[Hn1 Hn]] [Hm|[Hm1 Hm]] Hi Hj.
  - apply H1 in Hn. congruence.
  - apply H1 in Hn. congruence.
  - apply H1 in Hm. congruence.
  - apply (Hs2 (n - length evs1) (m - length evs1) e1 e2); [lia|done..].
Qed.

(** C7, as the code has it.  The first call into the object store that
    raises is the last event of the batch and its exception leaves
    [_batch_create_object]; when it was a call on the object at position
    [i], no call of the loop has been made on an object after [i]. *)
Theorem failure_aborts_batch
    (w : world) (h : heap) (objparams : list objparam) (t t' : trace)
    (r : outcome (list dbobj)) :
  _batch_create_object w h objparams t = (r, t') →
  ∃ evs, t' = t ++ evs ∧
    ∀ pre ev post x,
      evs = pre ++ ev :: post →
      store_raises w ev (t ++ pre) = Some x →
      post = [] ∧ r = Raise x ∧
      ∀ i e j, event_object ev = Some i → e ∈ evs →
               event_object e = Some j → j ≤ i.
Proof.
  intros Hrun.
  destruct (_batch_create_object_halts w h objparams _ _ _ Hrun)
    as (evs & -> & Hhalt).
  destruct (_batch_create_object_sorted w h objparams _ _ _ Hrun)
    as (evs' & Heq & Hsorted).
  apply app_inv_head in Heq as <-.
  exists evs. split; [done|]. intros pre ev post x Hsplit Hraise.
  destruct (Hhalt pre ev post x Hsplit Hraise) as [-> ->].
  split_and!; [done..|]. intros i e j Hi He Hj. subst evs.
  apply list_elem_of_lookup in He as [n Hn].
  apply (Hsorted n (length pre) e ev j i); [|done| |done..].
  - apply lookup_lt_Some in Hn. rewrite length_app in Hn. simpl in Hn. lia.
  - by rewrite lookup_app_r, Nat.sub_diag.
Qed.

Lemma failure_aborts_batch_witness :
  _batch_create_object failing_world [] [BUILDER_objparam; WIZARD_objparam] []
    = (Raise (External 1), failing_trace) ∧
  ∃ evs, failing_trace = [] ++ evs ∧
    ∀ pre ev post x,
      evs = pre ++ ev :: post →
      store_raises failing_world ev ([] ++ pre) = Some x →
      post = [] ∧ @Raise (list dbobj) (External 1) = Raise x ∧
      ∀ i e j, event_object ev = Some i → e ∈ evs →
               event_object e = Some j → j ≤ i.
Proof.
  assert (_batch_create_object failing_world []
            [BUILDER_objparam; WIZARD_objparam] []
          = (Raise (External 1), failing_trace)) as Hrun by reflexivity.
  split; [exact Hrun|].
  exact (failure_aborts_batch failing_world [] _ [] _ _ Hrun).
Defined.

(** C7 as stated fails: adding the permissions of the first object raises,
    the batch raises with it, and no call at all has been made on the
    second object, which was only constructed. *)
Lemma later_objects_not_attempted :
  _batch_create_object failing_world [] [BUILDER_objparam; WIZARD_objparam] []
    = (Raise (External 1), failing_trace) ∧
  store_raises failing_world (EPermissionsAdd 0 (VStr "Builders"))
    [EObjectDB 0 (op_create BUILDER_objparam);
     EObjectDB 1 (op_create WIZARD_objparam);
     ETypeclass 0; EBasetypeSetup 0; EAtObjectCreation 0]
    = Some (External 1) ∧
  ¬ ∃ e, e ∈ failing_trace ∧ event_object e = Some 1.
Proof.
  split_and!; [reflexivity..|].
  intros (e & He & Hobj). unfold failing_trace in He.
  rewrite !elem_of_cons in He.
  destruct He as [->|[->|[->|[->|[->|[->|He]]]]]]; try discriminate Hobj.
  by apply elem_of_nil in He.
Qed.

Lemma hooks_and_attachments_in_order_witness :
  _batch_create_object quiet_world [] [BUILDER_objparam] []
    = (Ok [DbObj 0 (op_create BUILDER_objparam)],
       [EObjectDB 0 (op_create BUILDER_objparam);
        ETypeclass 0; EBasetypeSetup 0; EAtObjectCreation 0;
        EPermissionsAdd 0 (VStr "Builders"); EPosthookSetup 0]) ∧
  [EObjectDB 0 (op_create BUILDER_objparam);
   ETypeclass 0; EBasetypeSetup 0; EAtObjectCreation 0;
   EPermissionsAdd 0 (VStr "Builders"); EPosthookSetup 0]
  = [] ++ imap (λ i p, EObjectDB i (op_create p)) [BUILDER_objparam]
       ++ concat (imap (λ i p,
            [ETypeclass i; EBasetypeSetup i; EAtObjectCreation i]
            ++ (if truthy [] (op_permissions p)
                then [EPermissionsAdd i (op_permissions p)] else [])
            ++ (if truthy [] (op_locks p)
                then [ELocksAdd i (op_locks p)] else [])
            ++ (if truthy [] (op_aliases p)
                then [EAliasesAdd i (op_aliases p)] else [])
            ++ ((λ kv, ENattributesAdd i kv.1 kv.2)
                  <$> map_to_list (op_nattributes p))
            ++ (if bool_decide (op_attributes p = ∅) then []
                else [EBatchAdd i (map_to_list (op_attributes p)).*1
                                  (map_to_list (op_attributes p)).*2])
            ++ [EPosthookSetup i]) [BUILDER_objparam]).
Proof.
  assert (_batch_create_object quiet_world [] [BUILDER_objparam] []
    = (Ok [DbObj 0 (op_create BUILDER_objparam)],
       [EObjectDB 0 (op_create BUILDER_objparam);
        ETypeclass 0; EBasetypeSetup 0; EAtObjectCreation 0;
        EPermissionsAdd 0 (VStr "Builders"); EPosthookSetup 0])) as Hrun
    by reflexivity.
  split; [exact Hrun|].
  exact (hooks_and_attachments_in_order quiet_world [] _ [] _ _ Hrun).
Defined.

Lemma spawn_preserves_order_witness :
  ∃ t',
    spawn quiet_world test_heap 5 [VDict 1; VDict 0; VDict 5] []
      = (Ok [DbObj 0 (op_create GOBLIN_objparam);
             DbObj 1 (CreateKwargs (VStr "goblin archwizard") VNone
                        (VStr "#2") VNone (VStr "src.objects.objects.Object"))],
         t') ∧
    ∃ rs : list (option objparam),
      Forall2 (λ prototype r,
                 (∃ ti ti', spawn_params quiet_world test_heap 5 prototype ti
                            = (Ok r, ti')) ∧
                 (r = None ↔ _get_prototype 5 test_heap prototype ∅ = Ok ∅))
              [VDict 1; VDict 0; VDict 5] rs ∧
      [DbObj 0 (op_create GOBLIN_objparam);
       DbObj 1 (CreateKwargs (VStr "goblin archwizard") VNone
                  (VStr "#2") VNone (VStr "src.objects.objects.Object"))]
      = imap (λ i p, DbObj i (op_create p)) (omap id rs).
Proof.
  eexists. split; [reflexivity|].
  eapply (spawn_preserves_order quiet_world test_heap 5 _ []).
  reflexivity.
Defined.

(** * Further properties of the resolver *)

(** X1.  The mapping a dict resolves to is the dict's own fields without
    [prototype], laid over the resolved mappings of its parents, which are
    laid over each other from left to right. *)
Theorem resolved_is_own_over_parents
    (h : heap) (a : addr) (fuel : nat) (m : pydict) :
  _get_prototype fuel h (VDict a) ∅ = Ok m →
  ∃ (ps : list pyval) (ms : list pydict),
    match deref h a !! "prototype" with
    | Some v => parent_list h v = Ok ps
    | None => ps = []
    end ∧
    Forall2 (λ p mp, ∃ fp, _get_prototype fp h p ∅ = Ok mp) ps ms ∧
    m = delete "prototype" (deref h a) ∪ foldl (λ acc mp, mp ∪ acc) ∅ ms.
Proof.
  intros Hm. destruct fuel as [|fuel]; [done|].
  apply _get_prototype_dict in Hm as (ps & ms & Hps & Hms & ->).
  exists ps, ms. split_and!; [done| |done].
  eapply Forall2_impl; [done|]. intros p mp Hp. by exists fuel.
Qed.

Lemma resolved_is_own_over_parents_witness :
  _get_prototype 4 test_heap (VDict 5) ∅ = Ok GOBLIN_ARCHWIZARD_resolved ∧
  ∃ (ps : list pyval) (ms : list pydict),
    match deref test_heap 5 !! "prototype" with
    | Some v => parent_list test_heap v = Ok ps
    | None => ps = []
    end ∧
    Forall2 (λ p mp, ∃ fp, _get_prototype fp test_heap p ∅ = Ok mp) ps ms ∧
    GOBLIN_ARCHWIZARD_resolved
    = delete "prototype" (deref test_heap 5) ∪ foldl (λ acc mp, mp ∪ acc) ∅ ms.
Proof.
  assert (_get_prototype 4 test_heap (VDict 5) ∅ = Ok GOBLIN_ARCHWIZARD_resolved)
    as Hm by reflexivity.
  split; [exact Hm|].
  exact (resolved_is_own_over_parents test_heap 5 4 _ Hm).
Defined.

(** X2.  A call of the resolver on an accumulator ends as the call on the
    empty accumulator does; when it returns, it returns that mapping laid
    over the accumulator, from which the key [prototype] is gone. *)
Theorem resolver_lays_over_accumulator
    (fuel : nat) (h : heap) (dic : pyval) (prot : pydict) :
  _get_prototype fuel h dic prot =
  match _get_prototype fuel h dic ∅ with
  | Ok r => Ok (r ∪ delete "prototype" prot)
  | Raise e => Raise e
  | OutOfFuel => OutOfFuel
  | OffModel => OffModel
  end.
Proof. rewrite _get_prototype_acc. by destruct (_get_prototype fuel h dic ∅). Qed.

(** X3.  A dict that is its own ancestor never resolves to a mapping,
    whatever the recursion depth: the resolver has no cycle detection. *)
Theorem cyclic_prototype_never_resolves
    (h : heap) (a : addr) :
  tc (parent_addr h) a a →
  ∀ (fuel : nat) (prot m : pydict),
    _get_prototype fuel h (VDict a) prot ≠ Ok m.
Proof.
  intros Hcycle.
  assert (∀ fuel b m, rtc (parent_addr h) a b → tc (parent_addr h) b a →
                      _get_prototype fuel h (VDict b) ∅ ≠ Ok m) as Hnever.
  { induction fuel as [|fuel IH]; intros b m Hab Hba Hm; [done|].
    apply _get_prototype_dict in Hm as (ps & ms & Hps & Hms & _).
    assert (∃ c, parent_addr h b c ∧ rtc (parent_addr h) a c ∧
                 tc (parent_addr h) c a) as (c & Hbc & Hac & Hca).
    { inversion Hba as [? ? Hstep|? c ? Hstep Hrest]; subst.
      - exists a. split_and!; [done|apply rtc_refl|done].
      - exists c. split_and!; [done| |done]. by eapply rtc_r. }
    destruct Hbc as (b' & v & ps' & [= <-] & Hv & Hps' & Hc).
    rewrite Hv in Hps. assert (ps' = ps) as -> by congruence.
    apply list_elem_of_lookup in Hc as [i Hi].
    destruct (Forall2_lookup_l _ _ _ _ _ Hms Hi) as (mc & _ & Hmc).
    by apply (IH c mc). }
  intros fuel prot m Hm. rewrite _get_prototype_acc in Hm.
  apply ofmap_Ok in Hm as (m0 & Hm0 & _).
  apply (Hnever fuel a m0); [apply rtc_refl|done|done].
Qed.

Lemma cyclic_prototype_never_resolves_witness :
  tc (parent_addr [OUROBOROS]) 0 0 ∧
  _get_prototype 100 [OUROBOROS] (VDict 0) ∅ ≠ Ok {[ "key" := VStr "snake" ]}.
Proof.
  assert (tc (parent_addr [OUROBOROS]) 0 0) as Hcycle.
  { apply tc_once. exists 0, (VDict 0), [VDict 0].
    split_and!; [reflexivity..|]. by left. }
  split; [exact Hcycle|].
  exact (cyclic_prototype_never_resolves [OUROBOROS] 0 Hcycle 100 ∅ _).
Defined.

(** X4.  One parent may be named bare or in a sequence of one: two dicts
    with the same fields otherwise resolve alike. *)
Theorem bare_parent_is_singleton
    (h : heap) (a1 a2 : addr) (b : pyval) :
  isinstance_dict b = true →
  deref h a1 !! "prototype" = Some b →
  deref h a2 !! "prototype" = Some (VSeq [b]) →
  delete "prototype" (deref h a1) = delete "prototype" (deref h a2) →
  ∀ (fuel : nat) (prot : pydict),
    _get_prototype fuel h (VDict a1) prot = _get_prototype fuel h (VDict a2) prot.
Proof.
  intros Hb H1 H2 Heq fuel prot. destruct fuel as [|fuel]; [done|].
  rewrite (_get_prototype_has_parents _ _ _ _ _ H1),
          (_get_prototype_has_parents _ _ _ _ _ H2).
  assert (parent_list h b = Ok [b]) as -> by (by destruct b).
  assert (parent_list h (VSeq [b]) = Ok [b]) as -> by done.
  simpl. destruct (resolver_body fuel h prot b) as [F| | |]; simpl; [|done..].
  unfold resolver_finish. simpl. unfold dict_update.
  by rewrite !delete_union, Heq.
Qed.

Lemma bare_parent_is_singleton_witness :
  _get_prototype 2 child_heap (VDict 1) ∅ = _get_prototype 2 child_heap (VDict 2) ∅.
Proof.
  apply (bare_parent_is_singleton child_heap 1 2 (VDict 0)); reflexivity.
Defined.

(** * Further properties of the spawner *)

Lemma spawn_loop_of_empty w h fuel :
  ∀ prototypes objsparams t,
    Forall (λ p, _get_prototype fuel h p ∅ = Ok ∅) prototypes →
    mfold (spawn_step w h fuel) objsparams prototypes t = (Ok objsparams, t).
Proof.
  induction prototypes as [|p prototypes IH]; intros objsparams t Hall; [done|].
  apply Forall_cons in Hall as [Hp Hall].
  cbn [mfold]. unfold mbind at 1, spawn_step at 1, mbind at 1,
    spawn_params at 1, mbind at 1, lift.
  rewrite Hp. rewrite bool_decide_true by done. simpl. by apply IH.
Qed.

(** X5.  Prototypes that all resolve to the empty mapping are all skipped:
    [spawn] returns no object and calls nothing, neither the random number
    generator nor the object store.  This covers [spawn()] without
    arguments. *)
Theorem spawn_of_empty_prototypes
    (w : world) (h : heap) (fuel : nat) (prototypes : list pyval) (t : trace) :
  Forall (λ p, _get_prototype fuel h p ∅ = Ok ∅) prototypes →
  spawn w h fuel prototypes t = (Ok [], t).
Proof.
  intros Hall. unfold spawn, mbind.
  by rewrite (spawn_loop_of_empty w h fuel prototypes [] t Hall).
Qed.

Lemma spawn_of_empty_prototypes_witness :
  spawn failing_world test_heap 1 [VDict 0; VDict 9] [ERandint]
  = (Ok [], [ERandint]).
Proof.
  apply (spawn_of_empty_prototypes failing_world test_heap 1).
  repeat constructor.
Defined.

(** A round of [spawn] that packs a tuple, with the dbref lookups. *)
Lemma spawn_params_Some_dbref w h fuel spec t p t' prot :
  spawn_params w h fuel spec t = (Ok (Some p), t') →
  _get_prototype fuel h spec ∅ = Ok prot →
  handle_dbref w (default VNone (prot !! "location")) (t ++ [ERandint])
    = inr (db_location (op_create p)) ∧
  handle_dbref w (default (DEFAULT_HOME w) (prot !! "home"))
      (t ++ [ERandint; EHandleDbref (default VNone (prot !! "location"))])
    = inr (db_home (op_create p)) ∧
  handle_dbref w (default VNone (prot !! "destination"))
      (t ++ [ERandint; EHandleDbref (default VNone (prot !! "location"));
             EHandleDbref (default (DEFAULT_HOME w) (prot !! "home"))])
    = inr (db_destination (op_create p)).
Proof.
  unfold spawn_params. intros Hrun Hprot.
  apply mbind_Ok in Hrun as (prot' & t0 & [= Hprot' <-] & Hrun).
  assert (prot' = prot) as -> by congruence.
  case_bool_decide as Hne; [done|].
  apply mbind_Ok in Hrun as (n & t1 & [= <- <-] & Hrun).
  unfold dict_pop in Hrun. simpl in Hrun.
  apply mbind_Ok in Hrun as (loc & t2 & Hloc & Hrun).
  apply mbind_Ok in Hrun as (home & t3 & Hhome & Hrun).
  apply mbind_Ok in Hrun as (dest & t4 & Hdest & Hrun).
  apply mbind_Ok in Hrun as (natt & t5 & _ & Hrun).
  apply mbind_Ok in Hrun as (attrs & t6 & _ & [= <- <-]).
  unfold _handle_dbref in Hloc, Hhome, Hdest. simpl.
  injection Hloc as Hloc <-. injection Hhome as Hhome <-.
  injection Hdest as Hdest <-.
  repeat match goal with
         | H : context [delete ?k ?m !! ?j] |- _ =>
             rewrite (lookup_delete_ne m k j) in H by done
         end.
  rewrite <-!(assoc_L (++)) in Hhome, Hdest. simpl in Hhome, Hdest.
  assert (∀ (x : exn + pyval) v, of_sum x = Ok v → x = inr v) as Hsum
    by (by intros [?|?] v [= ->]).
  apply Hsum in Hloc, Hhome, Hdest.
  rewrite <-(assoc_L (++)) in Hdest. by split_and!.
Qed.

(** X6.  A round of [spawn] that packs a tuple draws one random number,
    key or no key, then looks up [location], [home] and [destination] in
    that order, and after that only calls functions of attributes.  An
    absent field gets its default: the placeholder name with the random
    number, [None], [settings.DEFAULT_HOME], [None],
    [settings.BASE_OBJECT_TYPECLASS], and the empty string for
    [permissions], [locks] and [aliases]. *)
Theorem spawn_params_defaults
    (w : world) (h : heap) (fuel : nat) (spec : pyval) (t t' : trace)
    (p : objparam) (prot : pydict) :
  spawn_params w h fuel spec t = (Ok (Some p), t') →
  _get_prototype fuel h spec ∅ = Ok prot →
  (∃ calls,
     t' = t ++ [ERandint;
                EHandleDbref (default VNone (prot !! "location"));
                EHandleDbref (default (DEFAULT_HOME w) (prot !! "home"));
                EHandleDbref (default VNone (prot !! "destination"))]
            ++ calls ∧
     Forall (λ e, ∃ k f, e = ECall k f) calls) ∧
  db_key (op_create p)
    = default (VStr ("Spawned Object " +:+ fmt_06i (randint w t)))
              (prot !! "key") ∧
  handle_dbref w (default VNone (prot !! "location")) (t ++ [ERandint])
    = inr (db_location (op_create p)) ∧
  handle_dbref w (default (DEFAULT_HOME w) (prot !! "home"))
      (t ++ [ERandint; EHandleDbref (default VNone (prot !! "location"))])
    = inr (db_home (op_create p)) ∧
  handle_dbref w (default VNone (prot !! "destination"))
      (t ++ [ERandint; EHandleDbref (default VNone (prot !! "location"));
             EHandleDbref (default (DEFAULT_HOME w) (prot !! "home"))])
    = inr (db_destination (op_create p)) ∧
  db_typeclass_path (op_create p)
    = default (BASE_OBJECT_TYPECLASS w) (prot !! "typeclass") ∧
  op_permissions p = default (VStr "") (prot !! "permissions") ∧
  op_locks p = default (VStr "") (prot !! "locks") ∧
  op_aliases p = default (VStr "") (prot !! "aliases").
Proof.
  intros Hrun Hprot.
  destruct (spawn_params_Some_dbref _ _ _ _ _ _ _ _ Hrun Hprot)
    as (Hloc & Hhome & Hdest).
  apply spawn_params_Some in Hrun
    as (prot' & loc & home & dest & natt & attrs & Hprot' & _ & _ & Hattrs & ->).
  assert (prot' = prot) as -> by congruence. simpl in *.
  split_and!; try done.
  destruct (attributes_of_emits _ _ _ _ _ _ Hattrs) as (calls & -> & Hcalls).
  exists calls. split; [by rewrite <-(assoc_L (++))|].
  eapply Forall_impl; [done|]. intros e (k & f & -> & _). eauto.
Qed.

Lemma spawn_params_defaults_witness :
  spawn_params quiet_world test_heap 3 (VDict 1) []
    = (Ok (Some GOBLIN_objparam), GOBLIN_trace) ∧
  db_typeclass_path (op_create GOBLIN_objparam)
    = default (BASE_OBJECT_TYPECLASS quiet_world) (GOBLIN !! "typeclass") ∧
  op_permissions GOBLIN_objparam = default (VStr "") (GOBLIN !! "permissions").
Proof.
  assert (spawn_params quiet_world test_heap 3 (VDict 1) []
          = (Ok (Some GOBLIN_objparam), GOBLIN_trace)) as Hrun by reflexivity.
  assert (_get_prototype 3 test_heap (VDict 1) ∅ = Ok GOBLIN) as Hprot
    by reflexivity.
  split; [exact Hrun|].
  destruct (spawn_params_defaults quiet_world test_heap 3 (VDict 1) [] _ _ _
              Hrun Hprot) as (_ & _ & _ & _ & _ & Htc & Hperm & _).
  split; [exact Htc|exact Hperm].
Defined.

(** X7.  The transient attributes are exactly the [ndb_] fields of the
    resolved mapping, each under the name that follows the prefix (further
    underscores stay) and with its value as it is; building them never
    raises. *)
Theorem nattributes_are_the_ndb_fields
    (w : world) (h : heap) (fuel : nat) (spec : pyval) (t t' : trace)
    (p : objparam) (prot : pydict) :
  spawn_params w h fuel spec t = (Ok (Some p), t') →
  _get_prototype fuel h spec ∅ = Ok prot →
  ∀ name v,
    op_nattributes p !! name = Some v ↔ prot !! ("ndb_" +:+ name) = Some v.
Proof.
  intros Hrun Hprot name v.
  apply spawn_params_Some in Hrun
    as (prot' & loc & home & dest & natt & attrs & Hprot' & _ & Hnatt & _ & ->).
  assert (prot' = prot) as -> by congruence. simpl.
  unfold nattributes_of in Hnatt.
  destruct (nattribute_loop (map_to_list (after_pops prot)))
    as (n & Hn & Hlook); [apply NoDup_fst_map_to_list|].
  assert (n = natt) as -> by congruence.
  rewrite Hlook, elem_of_map_to_list, lookup_after_pops; [done|].
  rewrite !not_elem_of_cons. split_and!; try done. apply not_elem_of_nil.
Qed.

Lemma nattributes_are_the_ndb_fields_witness :
  spawn_params quiet_world [GHOST] 1 (VDict 0) []
    = (Ok (Some GHOST_objparam),
       [ERandint; EHandleDbref VNone; EHandleDbref (VStr "#2");
        EHandleDbref VNone]) ∧
  (op_nattributes GHOST_objparam !! "mood" = Some (VStr "shy") ↔
   GHOST !! ("ndb_" +:+ "mood") = Some (VStr "shy")).
Proof.
  assert (spawn_params quiet_world [GHOST] 1 (VDict 0) []
          = (Ok (Some GHOST_objparam),
             [ERandint; EHandleDbref VNone; EHandleDbref (VStr "#2");
              EHandleDbref VNone])) as Hrun by reflexivity.
  assert (_get_prototype 1 [GHOST] (VDict 0) ∅ = Ok GHOST) as Hprot
    by reflexivity.
  split; [exact Hrun|].
  exact (nattributes_are_the_ndb_fields quiet_world [GHOST] 1 (VDict 0) [] _ _ _
           Hrun Hprot "mood" (VStr "shy")).
Defined.

(** X8.  A generic attribute is always a field of the resolved mapping
    that [spawn] has not popped: none of [key], [location], [home],
    [destination], [typeclass], [permissions], [locks], [aliases] is ever
    stored as an attribute; and a value that is no function is stored as it
    is. *)
Theorem attributes_are_remaining_fields
    (w : world) (h : heap) (fuel : nat) (spec : pyval) (t t' : trace)
    (p : objparam) (prot : pydict) :
  spawn_params w h fuel spec t = (Ok (Some p), t') →
  _get_prototype fuel h spec ∅ = Ok prot →
  ∀ k, is_Some (op_attributes p !! k) →
    (k ∉ ["key"; "location"; "home"; "destination"; "typeclass";
          "permissions"; "locks"; "aliases"]) ∧
    is_Some (prot !! k) ∧
    (∀ v, prot !! k = Some v → callable v = false →
          op_attributes p !! k = Some v).
Proof.
  intros Hrun Hprot k Hattr.
  apply spawn_params_Some in Hrun
    as (prot' & loc & home & dest & natt & attrs & Hprot' & _ & _ & Hattrs & ->).
  assert (prot' = prot) as -> by congruence. simpl in *.
  unfold attributes_of in Hattrs.
  apply attribute_loop in Hattrs as (evs & _ & _ & HOk);
    [|apply NoDup_fst_map_to_list].
  destruct (HOk attrs eq_refl) as (HB & _ & HD).
  assert (∃ v, after_pops prot !! k = Some v ∧ is_attribute natt k = true)
    as (v & Hv & Hgen).
  { destruct (after_pops prot !! k) as [v|] eqn:Hv.
    - destruct (is_attribute natt k) eqn:Hgen; [eauto|].
      rewrite HD, lookup_empty in Hattr; [by destruct Hattr|done].
    - rewrite HD, lookup_empty in Hattr; [by destruct Hattr|].
      intros v Hv'%elem_of_map_to_list. congruence. }
  destruct (lookup_after_pops_Some _ _ _ Hv) as [Hk Hfree].
  split_and!; [done|eauto|].
  intros v' Hv' Hcall. assert (v' = v) as -> by congruence.
  apply HB; [by apply elem_of_map_to_list|done..].
Qed.

Lemma attributes_are_remaining_fields_witness :
  spawn_params quiet_world test_heap 3 (VDict 1) []
    = (Ok (Some GOBLIN_objparam), GOBLIN_trace) ∧
  ("attacks" ∉ ["key"; "location"; "home"; "destination"; "typeclass";
                "permissions"; "locks"; "aliases"]) ∧
  is_Some (GOBLIN !! "attacks") ∧
  (∀ v, GOBLIN !! "attacks" = Some v → callable v = false →
        op_attributes GOBLIN_objparam !! "attacks" = Some v).
Proof.
  assert (spawn_params quiet_world test_heap 3 (VDict 1) []
          = (Ok (Some GOBLIN_objparam), GOBLIN_trace)) as Hrun by reflexivity.
  assert (_get_prototype 3 test_heap (VDict 1) ∅ = Ok GOBLIN) as Hprot
    by reflexivity.
  split; [exact Hrun|].
  apply (attributes_are_remaining_fields quiet_world test_heap 3 (VDict 1) []
           _ _ _ Hrun Hprot "attacks").
  eexists. reflexivity.
Defined.

(** *** Preparation comes before creation *)

Lemma spawn_params_emits_prep w h fuel spec :
  emits (λ e, is_store_event e = false) (spawn_params w h fuel spec).
Proof.
  unfold spawn_params.
  apply emits_bind; [apply emits_lift|]. intros prot.
  case_bool_decide; [apply emits_ret|].
  apply emits_bind; [by apply emits_one|]. intros n.
  unfold dict_pop; simpl.
  apply emits_bind; [by apply emits_one|]. intros loc.
  apply emits_bind; [by apply emits_one|]. intros home.
  apply emits_bind; [by apply emits_one|]. intros dest.
  apply emits_bind; [apply emits_lift|]. intros natt.
  apply emits_bind; [|intros; apply emits_ret].
  eapply emits_weaken; [|apply attributes_of_emits].
  by intros e (k & f & -> & _).
Qed.

Lemma spawn_loop_emits_prep w h fuel prototypes objsparams :
  emits (λ e, is_store_event e = false)
        (mfold (spawn_step w h fuel) objsparams prototypes).
Proof.
  apply emits_mfold. intros acc prototype. unfold spawn_step.
  apply emits_bind; [apply spawn_params_emits_prep|]. intros r. apply emits_ret.
Qed.

Lemma create_all_emits_store w objparams :
  ∀ iobj, emits (λ e, is_store_event e = true) (create_all w iobj objparams).
Proof.
  induction objparams as [|p rest IH]; intros iobj; simpl.
  - apply emits_ret.
  - apply emits_bind; [by apply emits_one|]. intros _.
    apply emits_bind; [apply IH|]. intros dbobjs. apply emits_ret.
Qed.

Lemma _batch_create_object_emits_store w h objparams :
  emits (λ e, is_store_event e = true) (_batch_create_object w h objparams).
Proof.
  unfold _batch_create_object. apply emits_bind.
  - apply create_all_emits_store.
  - intros dbobjs. apply emits_mfold. intros objs [iobj dbobj].
    eapply emits_weaken; [|apply setup_object_emits]. intros e He. by destruct e.
Qed.

(** X9.  Everything [spawn] does to prepare the tuples, for all prototypes
    (random numbers, dbref lookups, calls of attribute functions), comes
    before its first call into the object store; and when one prototype
    does not resolve to a mapping, [spawn] does not return and the object
    store is never called: nothing is created. *)
Theorem spawn_prepares_before_it_creates
    (w : world) (h : heap) (fuel : nat) (prototypes : list pyval)
    (t t' : trace) (r : outcome (list dbobj)) :
  spawn w h fuel prototypes t = (r, t') →
  ∃ prep store,
    t' = t ++ prep ++ store ∧
    Forall (λ e, is_store_event e = false) prep ∧
    Forall (λ e, is_store_event e = true) store ∧
    ∀ p, p ∈ prototypes → (∀ m, _get_prototype fuel h p ∅ ≠ Ok m) →
         store = [] ∧ ∀ objs, r ≠ Ok objs.
Proof.
  unfold spawn, mbind.
  destruct (mfold (spawn_step w h fuel) [] prototypes t) as [r1 t1] eqn:Hloop.
  destruct (spawn_loop_emits_prep w h fuel prototypes [] _ _ _ Hloop)
    as (prep & -> & Hprep).
  destruct r1 as [objsparams| | |].
  - intros Hbatch.
    destruct (_batch_create_object_emits_store w h objsparams _ _ _ Hbatch)
      as (store & -> & Hstore).
    exists prep, store. split_and!; [by rewrite (assoc_L (++))|done..|].
    intros p Hp Hbad.
    apply spawn_loop_Ok in Hloop as (rs & Hrs & _).
    apply list_elem_of_lookup in Hp as [i Hi].
    destruct (Forall2_lookup_l _ _ _ _ _ Hrs Hi)
      as (ri & _ & (ti & ti' & Hrun) & _).
    unfold spawn_params in Hrun.
    apply mbind_Ok in Hrun as (prot & t0 & [= Hprot _] & _).
    by destruct (Hbad prot).
  - intros [= <- <-]. exists prep, []. rewrite app_nil_r. by split_and!.
  - intros [= <- <-]. exists prep, []. rewrite app_nil_r. by split_and!.
  - intros [= <- <-]. exists prep, []. rewrite app_nil_r. by split_and!.
Qed.

Lemma spawn_prepares_before_it_creates_witness :
  spawn quiet_world [GOBLIN; BROKEN] 2 [VDict 0; VDict 1] []
    = (Raise TypeError, GOBLIN_trace) ∧
  ∃ prep store,
    GOBLIN_trace = [] ++ prep ++ store ∧
    Forall (λ e, is_store_event e = false) prep ∧
    Forall (λ e, is_store_event e = true) store ∧
    ∀ p, p ∈ [VDict 0; VDict 1] →
         (∀ m, _get_prototype 2 [GOBLIN; BROKEN] p ∅ ≠ Ok m) →
         store = [] ∧ ∀ objs, @Raise (list dbobj) TypeError ≠ Ok objs.
Proof.
  assert (spawn quiet_world [GOBLIN; BROKEN] 2 [VDict 0; VDict 1] []
          = (Raise TypeError, GOBLIN_trace)) as Hrun by reflexivity.
  split; [exact Hrun|].
  exact (spawn_prepares_before_it_creates quiet_world [GOBLIN; BROKEN] 2 _ []
           _ _ Hrun).
Defined.

(** *** Construction comes before setup *)

Lemma create_all_prefix w :
  ∀ objparams iobj t r t',
    create_all w iobj objparams t = (r, t') →
    ∃ created,
      t' = t ++ created ∧
      created `prefix_of`
        imap (λ j p, EObjectDB (iobj + j) (op_create p)) objparams.
Proof.
  induction objparams as [|p rest IH]; intros iobj t r t'; simpl.
  { intros [= <- <-]. exists []. by rewrite app_nil_r. }
  unfold mbind at 1, store_call at 1.
  rewrite Nat.add_0_r.
  destruct (store_raises w (EObjectDB iobj (op_create p)) t) as [x|].
  { intros [= <- <-]. exists [EObjectDB iobj (op_create p)]. split; [done|].
    apply prefix_cons, prefix_nil. }
  unfold mbind at 1.
  destruct (create_all w (S iobj) rest (t ++ [EObjectDB iobj (op_create p)]))
    as [r1 t1] eqn:Hrest.
  apply IH in Hrest as (created & -> & Hpre).
  assert (EObjectDB iobj (op_create p) :: created `prefix_of`
          EObjectDB iobj (op_create p)
          :: imap ((λ j q, EObjectDB (iobj + j) (op_create q)) ∘ S) rest)
    as Hpre'.
  { apply prefix_cons.
    erewrite (imap_ext _ (λ j q, EObjectDB (S iobj + j) (op_create q))); [done|].
    intros j q _. unfold compose. f_equal. lia. }
  intros Hrun. exists (EObjectDB iobj (op_create p) :: created).
  split; [|done].
  by destruct r1; injection Hrun as <- <-; rewrite <-(assoc_L (++)).
Qed.

(** X10.  [_batch_create_object] constructs before it sets up: in every
    run, whatever its outcome, the constructions [ObjectDB( **kw)] come
    first, in the order of the tuples, and a call of the loop (typeclass,
    hook or attachment) is only made once all objects are constructed. *)
Theorem objects_constructed_before_setup
    (w : world) (h : heap) (objparams : list objparam) (t t' : trace)
    (r : outcome (list dbobj)) :
  _batch_create_object w h objparams t = (r, t') →
  ∃ created setup,
    t' = t ++ created ++ setup ∧
    created `prefix_of` imap (λ i p, EObjectDB i (op_create p)) objparams ∧
    Forall (λ e, is_Some (event_object e)) setup ∧
    (setup ≠ [] →
     created = imap (λ i p, EObjectDB i (op_create p)) objparams).
Proof.
  unfold _batch_create_object, mbind.
  destruct (create_all w 0 objparams t) as [r1 t1] eqn:Hcreate.
  destruct (create_all_prefix w objparams 0 _ _ _ Hcreate)
    as (created & Ht1 & Hpre).
  destruct r1 as [dbobjs| | |].
  - apply create_all_Ok in Hcreate as [-> ->].
    intros Hloop.
    assert (emits (λ e, is_Some (event_object e))
              (mfold (setup_object w h objparams) []
                 (enumerate
                    (imap (λ j p, DbObj (0 + j) (op_create p)) objparams))))
      as Hemits.
    { apply emits_mfold. intros objs [iobj dbobj].
      eapply emits_weaken; [|apply setup_object_emits].
      intros e He. rewrite He. eauto. }
    destruct (Hemits _ _ _ Hloop) as (setup & -> & Hsetup).
    exists (imap (λ j p, EObjectDB (0 + j) (op_create p)) objparams), setup.
    split_and!; [by rewrite (assoc_L (++))|done..].
  - intros [= <- <-]. subst t1. exists created, []. rewrite app_nil_r.
    by split_and!.
  - intros [= <- <-]. subst t1. exists created, []. rewrite app_nil_r.
    by split_and!.
  - intros [= <- <-]. subst t1. exists created, []. rewrite app_nil_r.
    by split_and!.
Qed.

Lemma objects_constructed_before_setup_witness :
  _batch_create_object failing_world [] [BUILDER_objparam; WIZARD_objparam] []
    = (Raise (External 1), failing_trace) ∧
  ∃ created setup,
    failing_trace = [] ++ created ++ setup ∧
    created `prefix_of`
      imap (λ i p, EObjectDB i (op_create p))
           [BUILDER_objparam; WIZARD_objparam] ∧
    Forall (λ e, is_Some (event_object e)) setup ∧
    (setup ≠ [] →
     created = imap (λ i p, EObjectDB i (op_create p))
                    [BUILDER_objparam; WIZARD_objparam]).
Proof.
  assert (_batch_create_object failing_world []
            [BUILDER_objparam; WIZARD_objparam] []
          = (Raise (External 1), failing_trace)) as Hrun by reflexivity.
  split; [exact Hrun|].
  exact (objects_constructed_before_setup failing_world [] _ [] _ _ Hrun).
Defined.

(** *** Parents without common fields *)

(** X11.  The order of two parents matters only where they clash: when
    their resolved mappings have no field in common, a dict that names them
    in one order resolves like a dict with the same fields that names them
    in the other. *)
Theorem disjoint_parents_commute
    (h : heap) (a1 a2 : addr) (p q : pyval) (fuel : nat) (mp mq : pydict) :
  deref h a1 !! "prototype" = Some (VSeq [p; q]) →
  deref h a2 !! "prototype" = Some (VSeq [q; p]) →
  delete "prototype" (deref h a1) = delete "prototype" (deref h a2) →
  _get_prototype fuel h p ∅ = Ok mp →
  _get_prototype fuel h q ∅ = Ok mq →
  mp ##ₘ mq →
  _get_prototype (S fuel) h (VDict a1) ∅ = _get_prototype (S fuel) h (VDict a2) ∅.
Proof.
  intros H1 H2 Heq Hp Hq Hdisj.
  rewrite (_get_prototype_has_parents _ _ _ _ _ H1),
          (_get_prototype_has_parents _ _ _ _ _ H2).
  simpl. rewrite !resolver_body_eq, Hp, Hq. simpl.
  rewrite !resolver_body_eq.
  rewrite (_get_prototype_acc fuel h q mp), (_get_prototype_acc fuel h p mq).
  rewrite Hp, Hq. simpl.
  rewrite (delete_prototype_id mp), (delete_prototype_id mq)
    by (by eapply _get_prototype_pops).
  unfold resolver_finish. simpl. unfold dict_update.
  rewrite (map_union_comm mq mp) by done.
  by rewrite !delete_union, Heq.
Qed.

Lemma disjoint_parents_commute_witness :
  _get_prototype 2 knight_heap (VDict 2) ∅ = _get_prototype 2 knight_heap (VDict 3) ∅.
Proof.
  apply (disjoint_parents_commute knight_heap 2 3 (VDict 0) (VDict 1) 1
           ARMOUR SPEED); try reflexivity.
  apply map_disjoint_singleton_l. reflexivity.
Defined.

(** *** Exceptions of the collaborators *)











